(** * Sweeper: the Minesweeper solver of [src/solver.js]

    Shallow embedding of [getNeighbors] and [findMoves], and of [readBoard]
    and the auto-solve toggle of [src/foreground.js].

    - A JavaScript [TypeError] (reading a property of [undefined]) is
      modelled by [None] in the option monad below.
    - A JavaScript [Set] of strings is a duplicate-free [list string] in
      insertion order; [Array.from] returns that list.
    - The keys are the strings [`${row}_${col}`]; they are decoded with
      [split('_')] and [Number] as in the source. *)

From Stdlib Require Import ZArith List Bool Lia.
From Stdlib Require Import Strings.String Strings.Ascii Numbers.DecimalString.
From Stdlib Require Import Numbers.DecimalZ.
Import ListNotations.

Open Scope Z_scope.

(** ** Error monad: [None] is a thrown [TypeError]. *)

Notation "x <- e ;; k" :=
  (match e with Some x => k | None => None end)
  (at level 61, e at next level, right associativity).

(** ** Data model *)

(** [tile.state]: [{ kind: "hidden" }] or [{ kind: "number", value: N }]. *)
Inductive tile_state :=
| Hidden
| Number (value : Z).

(** A tile object [{ row, col, state }]. *)
Record tile := mk_tile { row : Z; col : Z; state : tile_state }.

(** [board[row][col]]. *)
Definition board := list (list tile).

(** A neighbour object [{ row, col }]. *)
Definition position := (Z * Z)%type.

(** [board[r][c]] read at integer indices; [undefined] is [None]. *)
Definition tile_at (b : board) (r c : Z) : option tile :=
  if (r <? 0) || (c <? 0) then None
  else match nth_error b (Z.to_nat r) with
       | Some rw => nth_error rw (Z.to_nat c)
       | None => None
       end.

(** [board[r][c].state]. *)
Definition state_at (b : board) (r c : Z) : option tile_state :=
  option_map state (tile_at b r c).

(** ** [getNeighbors] *)

Definition directions : list (Z * Z) :=
  [(-1, -1); (-1, 0); (-1, 1);
   (0, -1);           (0, 1);
   (1, -1);  (1, 0);  (1, 1)].

(** The bounds test
    [newRow >= 0 && newRow < board.length && newCol >= 0 && newCol < board[0].length],
    evaluated left to right with short circuit; reading [board[0].length]
    on an empty board throws. *)
Definition bounds_check (b : board) (newRow newCol : Z) : option bool :=
  if (0 <=? newRow) && (newRow <? Z.of_nat (List.length b)) && (0 <=? newCol) then
    match b with
    | [] => None
    | row0 :: _ => Some (newCol <? Z.of_nat (List.length row0))
    end
  else Some false.

Fixpoint neighbors_loop (b : board) (r c : Z) (ds : list (Z * Z))
    (acc : list position) : option (list position) :=
  match ds with
  | [] => Some acc
  | (dr, dc) :: ds' =>
      let newRow := r + dr in
      let newCol := c + dc in
      ok <- bounds_check b newRow newCol ;;
      neighbors_loop b r c ds'
        (if ok then acc ++ [(newRow, newCol)] else acc)
  end.

Definition getNeighbors (b : board) (r c : Z) : option (list position) :=
  neighbors_loop b r c directions [].

(** ** Strings: the keys of the sets *)

(** [`${n}`] for an integer [n]. *)
Definition Z_to_string (n : Z) : string :=
  NilEmpty.string_of_int (Z.to_int n).

(** [cellKey = (row, col) => `${row}_${col}`]. *)
Definition cellKey (p : position) : string :=
  (Z_to_string (fst p) ++ "_" ++ Z_to_string (snd p))%string.

(** [s.split(sep)] for a one-character separator. *)
Fixpoint split_on (sep : ascii) (s : string) : list string :=
  match s with
  | EmptyString => [EmptyString]
  | String a s' =>
      if Ascii.eqb a sep then EmptyString :: split_on sep s'
      else match split_on sep s' with
           | [] => [String a EmptyString]
           | x :: xs => String a x :: xs
           end
  end.

(** JavaScript values met when decoding: a number, [NaN] or [undefined]. *)
Inductive jsval :=
| JNum (z : Z)
| JNaN
| JUndefined.

(** [Number(s)] on the strings of optional [-] followed by decimal digits
    ([""] gives [0], ["-"] gives [NaN]); any other string gives [NaN]. *)
Definition js_Number (s : string) : jsval :=
  match NilEmpty.int_of_string s with
  | Some (Decimal.Neg Decimal.Nil) => JNaN
  | Some d => JNum (Z.of_int d)
  | None => JNaN
  end.

(** [const [row, col] = key.split('_').map(Number); return { row, col };] *)
Definition decodeKey (key : string) : jsval * jsval :=
  match map js_Number (split_on "_"%char key) with
  | r :: c :: _ => (r, c)
  | [r] => (r, JUndefined)
  | [] => (JUndefined, JUndefined)
  end.

(** ** JavaScript [Set] of strings *)

Definition set_has (k : string) (s : list string) : bool :=
  existsb (String.eqb k) s.

Definition set_add (k : string) (s : list string) : list string :=
  if set_has k s then s else s ++ [k].

(** [positions.forEach(n => set.add(cellKey(n.row, n.col)))]. *)
Definition add_keys (ps : list position) (s : list string) : list string :=
  fold_left (fun acc n => set_add (cellKey n) acc) ps s.

(** ** [findMoves] *)

(** [array.filter(pred)] with a predicate that may throw. *)
Fixpoint filterM {A : Type} (f : A -> option bool) (l : list A)
    : option (list A) :=
  match l with
  | [] => Some []
  | x :: l' =>
      keep <- f x ;;
      rest <- filterM f l' ;;
      Some (if keep then x :: rest else rest)
  end.

Definition is_hidden (t : tile) : bool :=
  match state t with Hidden => true | Number _ => false end.

(** [for (let c = 0; c < board[r].length; c++) body(r, c, board[r][c])] *)
Fixpoint loop_cols {S : Type} (body : Z -> tile -> S -> option S)
    (c : Z) (rw : list tile) (s : S) : option S :=
  match rw with
  | [] => Some s
  | t :: rw' => s' <- body c t s ;; loop_cols body (c + 1) rw' s'
  end.

(** [for (let r = 0; r < board.length; r++) ...] *)
Fixpoint loop_rows {S : Type} (body : Z -> Z -> tile -> S -> option S)
    (r : Z) (rows : list (list tile)) (s : S) : option S :=
  match rows with
  | [] => Some s
  | rw :: rows' =>
      s' <- loop_cols (body r) 0 rw s ;; loop_rows body (r + 1) rows' s'
  end.

(** The body of the first pass at tile [board[r][c]] (lines 111-132). *)
Definition pass1_body (b : board) (r c : Z) (t : tile) (mineCells : list string)
    : option (list string) :=
  match state t with
  | Hidden => Some mineCells
  | Number value =>
      neighbors <- getNeighbors b r c ;;
      hiddenNeighbors <- filterM (fun n =>
          neighborTile <- tile_at b (fst n) (snd n) ;;
          Some (is_hidden neighborTile)) neighbors ;;
      if value =? Z.of_nat (List.length hiddenNeighbors)
      then Some (add_keys hiddenNeighbors mineCells)
      else Some mineCells
  end.

(** The body of the second pass at tile [board[r][c]] (lines 142-168). *)
Definition pass2_body (b : board) (mineCells : list string) (r c : Z) (t : tile)
    (safeCells : list string) : option (list string) :=
  match state t with
  | Hidden => Some safeCells
  | Number value =>
      neighbors <- getNeighbors b r c ;;
      let identifiedMineCount :=
        List.length (filter (fun n => set_has (cellKey n) mineCells) neighbors) in
      if Z.of_nat identifiedMineCount =? value then
        hiddenNeighbors <- filterM (fun n =>
            neighborTile <- tile_at b (fst n) (snd n) ;;
            Some (is_hidden neighborTile && negb (set_has (cellKey n) mineCells)))
          neighbors ;;
        Some (add_keys hiddenNeighbors safeCells)
      else Some safeCells
  end.

(** First pass, from an empty [mineCells]. *)
Definition pass1 (b : board) : option (list string) :=
  loop_rows (pass1_body b) 0 b [].

(** Second pass, from an empty [safeCells], consulting [mineCells]. *)
Definition pass2 (b : board) (mineCells : list string) : option (list string) :=
  loop_rows (pass2_body b mineCells) 0 b [].

(** The returned object [{ safeCells, mineCells }]. *)
Record moves := mk_moves {
  safeCells : list (jsval * jsval);
  mineCells : list (jsval * jsval)
}.

Definition findMoves (b : board) : option moves :=
  mines <- pass1 b ;;
  safe <- pass2 b mines ;;
  Some {| safeCells := map decodeKey safe; mineCells := map decodeKey mines |}.

(** ** Vocabulary of the statements *)

(** Width of row 0, the column bound of [getNeighbors] ([0] when there is no row). *)
Definition width0 (b : board) : Z :=
  match b with [] => 0 | row0 :: _ => Z.of_nat (List.length row0) end.

(** Every row is as long as row 0. *)
Definition rectangular (b : board) : Prop :=
  forall rw, In rw b -> Z.of_nat (List.length rw) = width0 b.

(** A returned position [{row, col}] with numeric coordinates. *)
Definition out_pos (p : position) : jsval * jsval := (JNum (fst p), JNum (snd p)).

Definition hidden_at (b : board) (p : position) : bool :=
  match state_at b (fst p) (snd p) with Some Hidden => true | _ => false end.

(** A board from a grid of states, tiles carrying their own coordinates. *)
Definition mk_board (g : list (list tile_state)) : board :=
  map (fun '(r, rw) =>
         map (fun '(c, s) => mk_tile (Z.of_nat r) (Z.of_nat c) s)
             (combine (seq 0 (List.length rw)) rw))
      (combine (seq 0 (List.length g)) g).

(** Scenario C of the spec: [2 . . / 1 . .]. *)
Definition scenarioC : board :=
  mk_board [[Number 2; Hidden; Hidden]; [Number 1; Hidden; Hidden]].

(** ** [readBoard] of [src/foreground.js] *)

(** The page is read through [document.querySelectorAll('.square')]; the
    model takes that list of squares, each with its [id] and the tokens of
    its [classList] in order. Strings are sequences of code units below 256. *)
Record square := mk_square { sq_id : string; sq_classes : list string }.

(** The JavaScript white space and line terminators among those code units. *)
Definition is_js_space (a : ascii) : bool :=
  match nat_of_ascii a with
  | 9 | 10 | 11 | 12 | 13 | 32 | 160 => true
  | _ => false
  end%nat.

Fixpoint trim_start (s : string) : string :=
  match s with
  | String a s' => if is_js_space a then trim_start s' else s
  | EmptyString => EmptyString
  end.

Definition is_digit (a : ascii) : bool :=
  let n := nat_of_ascii a in (48 <=? n)%nat && (n <=? 57)%nat.

(** The longest prefix made of decimal digits. *)
Fixpoint digit_prefix (s : string) : string :=
  match s with
  | String a s' => if is_digit a then String a (digit_prefix s') else EmptyString
  | EmptyString => EmptyString
  end.

(** [parseInt(s, 10)]: skip leading white space, read an optional sign, then
    the longest run of decimal digits; [NaN] when there is none. The value is
    exact ([-0] is [0]; integers above 2^53 are not rounded). *)
Definition js_parseInt (s : string) : jsval :=
  let s1 := trim_start s in
  let '(sign, s2) :=
    match s1 with
    | String "-"%char s' => (-1, s')
    | String "+"%char s' => (1, s')
    | _ => (1, s1)
    end in
  match digit_prefix s2 with
  | EmptyString => JNaN
  | p => match NilEmpty.uint_of_string p with
         | Some d => JNum (sign * Z.of_uint d)
         | None => JNaN
         end
  end.

(** [parseInt(undefined, 10)] reads the string ["undefined"]. *)
Definition js_parseInt_opt (o : option string) : jsval :=
  match o with Some s => js_parseInt s | None => js_parseInt "undefined" end.

(** [const [rowStr, colStr] = id.split('_'); row = parseInt(rowStr, 10);
    col = parseInt(colStr, 10);] *)
Definition parse_id (id : string) : jsval * jsval :=
  let parts := split_on "_"%char id in
  (js_parseInt_opt (nth_error parts 0), js_parseInt_opt (nth_error parts 1)).

(** [s.replace(pat, rep)] with a string pattern: the first occurrence only. *)
Definition replace_first (pat rep s : string) : string :=
  match index 0 pat s with
  | Some i =>
      (substring 0 i s ++ rep ++
       substring (i + String.length pat) (String.length s - (i + String.length pat)) s)%string
  | None => s
  end.

(** The state read by [readBoard] keeps [parseInt]'s result, [NaN] included. *)
Inductive rstate :=
| RHidden
| RNumber (value : jsval).

(** A tile object [{ row, col, state }] as [readBoard] builds it. *)
Record rtile := mk_rtile { rt_row : jsval; rt_col : jsval; rt_state : rstate }.

(** The state of one square (lines 32-47). *)
Definition square_state (sq : square) : rstate :=
  if existsb (String.eqb "blank") (sq_classes sq) then RHidden
  else match find (fun cls => prefix "open" cls) (sq_classes sq) with
       | Some openClass => RNumber (js_parseInt (replace_first "open" "" openClass))
       | None => RHidden
       end.

(** [Map] keys compared with SameValueZero: on these values, equality. *)
Definition jsval_eqb (x y : jsval) : bool :=
  match x, y with
  | JNum a, JNum b => Z.eqb a b
  | JNaN, JNaN => true
  | JUndefined, JUndefined => true
  | _, _ => false
  end.

(** A JavaScript [Map]: its entries in insertion order. *)
Fixpoint am_get {V : Type} (k : jsval) (m : list (jsval * V)) : option V :=
  match m with
  | [] => None
  | (k', v) :: m' => if jsval_eqb k k' then Some v else am_get k m'
  end.

(** [map.set(k, v)]: replaces the value in place, or appends a new entry. *)
Definition am_set {V : Type} (k : jsval) (v : V) (m : list (jsval * V))
    : list (jsval * V) :=
  match am_get k m with
  | Some _ => map (fun '(k', v') => if jsval_eqb k k' then (k', v) else (k', v')) m
  | None => m ++ [(k, v)]
  end.

Definition board_map := list (jsval * list (jsval * rtile)).

(** One iteration of [squares.forEach] (lines 26-53). Map values are never
    [undefined], so [has(k)] is [get(k) !== undefined]; the inner map created
    by [new Map()] is only reachable from the outer map, so mutating it is
    updating its entry. *)
Definition store_square (boardMap : board_map) (sq : square) : board_map :=
  let '(row, col) := parse_id (sq_id sq) in
  let colMap := match am_get row boardMap with Some cm => cm | None => [] end in
  am_set row (am_set col (mk_rtile row col (square_state sq)) colMap) boardMap.

Definition build_map (squares : list square) : board_map :=
  fold_left store_square squares [].

(** [if (x > acc) acc = x;] for a key [x]; [NaN > acc] is false. *)
Definition max_step (acc : Z) (x : jsval) : Z :=
  match x with JNum z => if acc <? z then z else acc | _ => acc end.

Definition max_row (boardMap : board_map) : Z :=
  fold_left (fun acc '(row, _) => max_step acc row) boardMap (-1).

Definition max_col (boardMap : board_map) : Z :=
  fold_left (fun acc '(_, colMap) =>
               fold_left (fun acc' '(col, _) => max_step acc' col) colMap acc)
            boardMap (-1).

(** [0, 1, ..., n - 1] ([for (let i = 0; i <= n - 1; i++)]). *)
Definition zrange (n : Z) : list Z := map Z.of_nat (seq 0 (Z.to_nat n)).

Definition gap_tile (r c : Z) : rtile := mk_rtile (JNum r) (JNum c) RHidden.

(** The tile pushed at [(r, c)] (lines 72-77): the stored one, else a gap. *)
Definition grid_cell (boardMap : board_map) (r c : Z) : rtile :=
  match am_get (JNum r) boardMap with
  | Some colMap =>
      match am_get (JNum c) colMap with
      | Some t => t
      | None => gap_tile r c
      end
  | None => gap_tile r c
  end.

(** Lines 68-80. *)
Definition build_grid (boardMap : board_map) (maxRow maxCol : Z) : list (list rtile) :=
  map (fun r => map (fun c => grid_cell boardMap r c) (zrange (maxCol + 1)))
      (zrange (maxRow + 1)).

(** [readBoard] without its console output ([debugPrintBoard]). *)
Definition readBoard (squares : list square) : list (list rtile) :=
  let boardMap := build_map squares in
  build_grid boardMap (max_row boardMap) (max_col boardMap).

(** The tile at [board[r][c]] of a board read from the page. *)
Definition rtile_at (rb : list (list rtile)) (r c : Z) : option rtile :=
  if (r <? 0) || (c <? 0) then None
  else match nth_error rb (Z.to_nat r) with
       | Some rw => nth_error rw (Z.to_nat c)
       | None => None
       end.




(** ** The auto-solve toggle of [src/foreground.js] *)

(** The flag [autoSolving], the number of [autoSolveLoop] calls suspended at
    [await new Promise(resolve => setTimeout(resolve, 150))], and the
    [clickCell] calls made so far, in order. *)
Record auto_state := mk_auto {
  autoSolving : bool;
  waiting : nat;
  clicked : list (jsval * jsval)
}.

(** One pass of the [while] body with [autoSolving] true (lines 280-296), on
    the board read at that moment: click every safe cell and wait, or leave
    the loop ([break], or the [TypeError] of [findMoves]) through [finally],
    which clears the flag. [w] counts the other waiting loops. *)
Definition solve_step (b : board) (w : nat) (log : list (jsval * jsval)) : auto_state :=
  match findMoves b with
  | Some res =>
      match safeCells res with
      | [] => mk_auto false w log
      | cells => mk_auto true (S w) (log ++ cells)
      end
  | None => mk_auto false w log
  end.

(** [autoSolveLoop()] up to its first [await]. *)
Definition autoSolveLoop (b : board) (st : auto_state) : auto_state :=
  if autoSolving st then st
  else solve_step b (waiting st) (clicked st).

(** The events: a key press of 'a' or 'A', and a waiting loop waking up
    after its 150 ms; [b] is the board on the page at that moment. *)
Inductive auto_event :=
| KeyA (b : board)
| Wake (b : board).

(** [None]: no loop is waiting, so there is nothing to wake. *)
Definition auto_step (st : auto_state) (e : auto_event) : option auto_state :=
  match e with
  | KeyA b =>
      if autoSolving st then Some (mk_auto false (waiting st) (clicked st))
      else Some (autoSolveLoop b st)
  | Wake b =>
      match waiting st with
      | O => None
      | S w =>
          if autoSolving st then Some (solve_step b w (clicked st))
          else Some (mk_auto false w (clicked st))
      end
  end.

Fixpoint auto_run (st : auto_state) (es : list auto_event) : option auto_state :=
  match es with
  | [] => Some st
  | e :: es' => st' <- auto_step st e ;; auto_run st' es'
  end.

(** The state when the script is injected: [let autoSolving = false;]. *)
Definition auto_init : auto_state := mk_auto false 0 [].

(** * Lemmas *)

(** ** The key encoding *)

Fixpoint free_of (sep : ascii) (s : string) : bool :=
  match s with
  | EmptyString => true
  | String a s' => negb (Ascii.eqb a sep) && free_of sep s'
  end.

Lemma string_of_uint_free (d : Decimal.uint) :
  free_of "_"%char (NilEmpty.string_of_uint d) = true.
Proof. induction d; simpl; auto. Qed.

Lemma Z_to_string_free (z : Z) : free_of "_"%char (Z_to_string z) = true.
Proof.
  unfold Z_to_string, NilEmpty.string_of_int.
  destruct (Z.to_int z); simpl; apply string_of_uint_free.
Qed.

Lemma split_on_free (sep : ascii) (s : string) :
  free_of sep s = true -> split_on sep s = [s].
Proof.
  induction s as [|a s IH]; simpl; [reflexivity|].
  intros H. apply andb_prop in H as [Ha Hs].
  apply negb_true_iff in Ha. rewrite Ha, (IH Hs). reflexivity.
Qed.

Lemma split_on_app (sep : ascii) (s t : string) :
  free_of sep s = true ->
  split_on sep (s ++ String sep t) = s :: split_on sep t.
Proof.
  induction s as [|a s IH]; simpl.
  - intros _. rewrite Ascii.eqb_refl. reflexivity.
  - intros H. apply andb_prop in H as [Ha Hs].
    apply negb_true_iff in Ha. rewrite Ha, (IH Hs). reflexivity.
Qed.

Lemma js_Number_Z_to_string (z : Z) : js_Number (Z_to_string z) = JNum z.
Proof.
  unfold js_Number, Z_to_string. rewrite NilEmpty.isi.
  pose proof (DecimalZ.of_to z) as Hz.
  destruct (Z.to_int z) as [d|d] eqn:E.
  - rewrite Hz. reflexivity.
  - destruct d; try (rewrite Hz; reflexivity).
    destruct z; discriminate.
Qed.

Lemma decodeKey_cellKey (p : position) : decodeKey (cellKey p) = out_pos p.
Proof.
  destruct p as [r c]. unfold decodeKey, cellKey; simpl.
  rewrite split_on_app by apply Z_to_string_free.
  rewrite split_on_free by apply Z_to_string_free.
  simpl. rewrite !js_Number_Z_to_string. reflexivity.
Qed.

Lemma out_pos_inj (p q : position) : out_pos p = out_pos q -> p = q.
Proof.
  destruct p, q; unfold out_pos; simpl; intros H; inversion H; reflexivity.
Qed.

Lemma cellKey_inj (p q : position) : cellKey p = cellKey q -> p = q.
Proof.
  intros H. apply out_pos_inj. rewrite <- !decodeKey_cellKey, H. reflexivity.
Qed.

(** ** Sets of keys *)

Lemma set_has_In (k : string) (s : list string) : set_has k s = true <-> In k s.
Proof.
  unfold set_has. rewrite existsb_exists. split.
  - intros [x [Hx Hk]]. apply String.eqb_eq in Hk. subst. exact Hx.
  - intros Hk. exists k. split; [exact Hk | apply String.eqb_refl].
Qed.

Lemma In_set_add (x k : string) (s : list string) :
  In x (set_add k s) <-> In x s \/ x = k.
Proof.
  unfold set_add. destruct (set_has k s) eqn:E.
  - apply set_has_In in E. split; [tauto|]. intros [H|H]; subst; auto.
  - rewrite in_app_iff. simpl. intuition.
Qed.

Lemma NoDup_set_add (k : string) (s : list string) :
  NoDup s -> NoDup (set_add k s).
Proof.
  unfold set_add. intros Hs. destruct (set_has k s) eqn:E; [exact Hs|].
  apply NoDup_app; auto using NoDup_cons, NoDup_nil.
  intros x Hx Hx'. destruct Hx' as [<-|[]].
  rewrite <- set_has_In in Hx. congruence.
Qed.

Lemma In_add_keys (x : string) (ps : list position) (s : list string) :
  In x (add_keys ps s) <-> In x s \/ exists n, In n ps /\ x = cellKey n.
Proof.
  unfold add_keys. revert s.
  induction ps as [|n ps IH]; intros s; simpl.
  - split; [tauto|]. intros [H|[n [[] _]]]. exact H.
  - rewrite IH, In_set_add. split.
    + intros [[H|H]|[m [Hm ->]]]; eauto.
    + intros [H|[m [[<-|Hm] ->]]]; eauto.
Qed.

Lemma NoDup_add_keys (ps : list position) (s : list string) :
  NoDup s -> NoDup (add_keys ps s).
Proof.
  unfold add_keys. revert s.
  induction ps as [|n ps IH]; intros s Hs; simpl; auto using NoDup_set_add.
Qed.

(** Decoding a set of keys: membership and absence of duplicates. *)
Lemma In_decode_keys (p : position) (s : list string) :
  (forall k, In k s -> exists n, k = cellKey n) ->
  In (out_pos p) (map decodeKey s) <-> In (cellKey p) s.
Proof.
  intros Hk. rewrite in_map_iff. split.
  - intros [k [Hd Hin]]. destruct (Hk k Hin) as [n ->].
    rewrite decodeKey_cellKey in Hd. apply out_pos_inj in Hd. subst. exact Hin.
  - intros Hin. exists (cellKey p). split; [apply decodeKey_cellKey | exact Hin].
Qed.

Lemma NoDup_decode_keys (s : list string) :
  (forall k, In k s -> exists n, k = cellKey n) ->
  NoDup s -> NoDup (map decodeKey s).
Proof.
  induction s as [|k s IH]; intros Hk Hnd; simpl; [constructor|].
  inversion Hnd as [|? ? Hnin Hnd']; subst.
  constructor; [|apply IH; auto; intros; apply Hk; simpl; auto].
  rewrite in_map_iff. intros [k' [Hd Hin]].
  destruct (Hk k (or_introl eq_refl)) as [n ->].
  destruct (Hk k' (or_intror Hin)) as [n' ->].
  rewrite !decodeKey_cellKey in Hd. apply out_pos_inj in Hd. subst. contradiction.
Qed.

(** ** [getNeighbors] *)

Definition in_box (b : board) (p : position) : bool :=
  (0 <=? fst p) && (fst p <? Z.of_nat (List.length b)) &&
  (0 <=? snd p) && (snd p <? width0 b).

Lemma bounds_check_in_box (b : board) (nr nc : Z) :
  bounds_check b nr nc = Some (in_box b (nr, nc)).
Proof.
  unfold bounds_check, in_box; simpl.
  destruct ((0 <=? nr) && (nr <? Z.of_nat (List.length b)) && (0 <=? nc)) eqn:E;
    [|reflexivity].
  destruct b as [|row0 b']; simpl.
  - apply andb_prop in E as [E _]. apply andb_prop in E as [E1 E2].
    apply Z.leb_le in E1. apply Z.ltb_lt in E2. simpl in E2. lia.
  - reflexivity.
Qed.

Definition shift (r c : Z) (d : Z * Z) : position := (r + fst d, c + snd d).

Lemma neighbors_loop_spec (b : board) (r c : Z) (ds : list (Z * Z))
    (acc : list position) :
  neighbors_loop b r c ds acc = Some (acc ++ filter (in_box b) (map (shift r c) ds)).
Proof.
  revert acc. induction ds as [|[dr dc] ds IH]; intros acc; simpl.
  - rewrite app_nil_r. reflexivity.
  - rewrite bounds_check_in_box, IH.
    change (shift r c (dr, dc)) with (r + dr, c + dc).
    destruct (in_box b (r + dr, c + dc)); simpl.
    + rewrite <- app_assoc. reflexivity.
    + reflexivity.
Qed.

(** The list [getNeighbors] returns, as a filter over the offsets. *)
Definition neighbors_of (b : board) (r c : Z) : list position :=
  filter (in_box b) (map (shift r c) directions).

Lemma getNeighbors_spec (b : board) (r c : Z) :
  getNeighbors b r c = Some (neighbors_of b r c).
Proof. unfold getNeighbors. rewrite neighbors_loop_spec. reflexivity. Qed.

Lemma in_box_bounds (b : board) (p : position) :
  in_box b p = true ->
  0 <= fst p < Z.of_nat (List.length b) /\ 0 <= snd p < width0 b.
Proof.
  unfold in_box. intros H.
  repeat match goal with H : _ && _ = true |- _ => apply andb_prop in H as [? ?] end.
  repeat match goal with
         | H : (_ <=? _) = true |- _ => apply Z.leb_le in H
         | H : (_ <? _) = true |- _ => apply Z.ltb_lt in H
         end.
  lia.
Qed.

Lemma getNeighbors_bounds (b : board) (r c : Z) (ns : list position) (p : position) :
  getNeighbors b r c = Some ns -> In p ns ->
  0 <= fst p < Z.of_nat (List.length b) /\ 0 <= snd p < width0 b.
Proof.
  rewrite getNeighbors_spec. intros H Hp.
  assert (Hns : ns = neighbors_of b r c) by congruence.
  rewrite Hns in Hp. unfold neighbors_of in Hp.
  apply filter_In in Hp as [_ Hp]. apply in_box_bounds, Hp.
Qed.

(** Subsequence: [subseq l1 l2] when [l1] is [l2] with elements left out. *)
Inductive subseq {A : Type} : list A -> list A -> Prop :=
| subseq_nil : subseq [] []
| subseq_skip x l1 l2 : subseq l1 l2 -> subseq l1 (x :: l2)
| subseq_keep x l1 l2 : subseq l1 l2 -> subseq (x :: l1) (x :: l2).

Lemma subseq_filter {A : Type} (f : A -> bool) (l : list A) :
  subseq (filter f l) l.
Proof.
  induction l as [|x l IH]; simpl; [constructor|].
  destruct (f x); constructor; exact IH.
Qed.

Lemma subseq_length {A : Type} (l1 l2 : list A) :
  subseq l1 l2 -> (List.length l1 <= List.length l2)%nat.
Proof. induction 1; simpl; lia. Qed.

(** ** Board access *)

Lemma tile_at_nth (b : board) (i j : nat) :
  tile_at b (Z.of_nat i) (Z.of_nat j) =
  match nth_error b i with Some rw => nth_error rw j | None => None end.
Proof.
  unfold tile_at. rewrite !Nat2Z.id.
  replace ((Z.of_nat i <? 0) || (Z.of_nat j <? 0)) with false
    by (symmetry; apply orb_false_iff; split; apply Z.ltb_ge; lia).
  reflexivity.
Qed.

Lemma tile_at_nonneg (b : board) (r c : Z) (t : tile) :
  tile_at b r c = Some t -> 0 <= r /\ 0 <= c.
Proof.
  unfold tile_at. destruct (r <? 0) eqn:E1, (c <? 0) eqn:E2; simpl;
    try discriminate. apply Z.ltb_ge in E1, E2. auto.
Qed.

Lemma tile_at_in_box (b : board) (p : position) :
  rectangular b -> in_box b p = true ->
  exists t, tile_at b (fst p) (snd p) = Some t.
Proof.
  intros Hrect Hbox. apply in_box_bounds in Hbox as [[Hr0 Hr1] [Hc0 Hc1]].
  unfold tile_at.
  replace ((fst p <? 0) || (snd p <? 0)) with false
    by (symmetry; apply orb_false_iff; split; apply Z.ltb_ge; lia).
  destruct (nth_error b (Z.to_nat (fst p))) as [rw|] eqn:Erw.
  - apply nth_error_In in Erw as Hin. apply Hrect in Hin.
    destruct (nth_error rw (Z.to_nat (snd p))) as [t|] eqn:Et; [eauto|].
    apply nth_error_None in Et. lia.
  - apply nth_error_None in Erw. lia.
Qed.

(** ** [filterM] *)

Lemma filterM_total {A : Type} (f : A -> option bool) (g : A -> bool) (l : list A) :
  (forall x, In x l -> f x = Some (g x)) -> filterM f l = Some (filter g l).
Proof.
  induction l as [|x l IH]; intros H; simpl; [reflexivity|].
  rewrite (H x (or_introl eq_refl)), IH by (intros; apply H; simpl; auto).
  reflexivity.
Qed.

Lemma filterM_sound {A : Type} (f : A -> option bool) (l l' : list A) :
  filterM f l = Some l' -> forall x, In x l' -> In x l /\ f x = Some true.
Proof.
  revert l'. induction l as [|y l IH]; intros l' H x Hx; simpl in H.
  - inversion H; subst. destruct Hx.
  - destruct (f y) as [keep|] eqn:Ef; [|discriminate].
    destruct (filterM f l) as [rest|] eqn:Er; [|discriminate].
    inversion H; subst. destruct keep.
    + destruct Hx as [<-|Hx]; [simpl; auto|].
      destruct (IH rest eq_refl x Hx); simpl; auto.
    + destruct (IH rest eq_refl x Hx); simpl; auto.
Qed.

(** ** The loops over the board *)

Section Loops.
Context {S : Type}.

Lemma loop_cols_inv (I : S -> Prop) (body : Z -> tile -> S -> option S) :
  (forall c t s s', I s -> body c t s = Some s' -> I s') ->
  forall rw c s s', I s -> loop_cols body c rw s = Some s' -> I s'.
Proof.
  intros Hstep rw. induction rw as [|t rw IH]; intros c s s' Hs H; simpl in H.
  - inversion H; subst; exact Hs.
  - destruct (body c t s) as [s1|] eqn:E; [|discriminate].
    eapply IH; [eapply Hstep; eauto | exact H].
Qed.

Lemma loop_rows_inv (I : S -> Prop) (body : Z -> Z -> tile -> S -> option S) :
  (forall r c t s s', I s -> body r c t s = Some s' -> I s') ->
  forall rows r s s', I s -> loop_rows body r rows s = Some s' -> I s'.
Proof.
  intros Hstep rows. induction rows as [|rw rows IH]; intros r s s' Hs H;
    simpl in H.
  - inversion H; subst; exact Hs.
  - destruct (loop_cols (body r) 0 rw s) as [s1|] eqn:E; [|discriminate].
    eapply IH; [|exact H].
    eapply (loop_cols_inv I (body r)); [|exact Hs|exact E].
    intros; eapply Hstep; eauto.
Qed.

End Loops.

(** A loop whose body adds a set of keys, depending only on the tile and
    its coordinates, adds the union of those keys. *)
Lemma loop_cols_union (gen : Z -> tile -> list position)
    (body : Z -> tile -> list string -> option (list string))
    (rw : list tile) (c0 : Z) (s : list string) :
  (forall j t, nth_error rw j = Some t ->
     forall s, body (c0 + Z.of_nat j) t s = Some (add_keys (gen (c0 + Z.of_nat j) t) s)) ->
  exists s', loop_cols body c0 rw s = Some s' /\
    forall x, In x s' <-> In x s \/
      exists j t n, nth_error rw j = Some t /\ In n (gen (c0 + Z.of_nat j) t) /\
                    x = cellKey n.
Proof.
  revert c0 s. induction rw as [|t rw IH]; intros c0 s Hbody; simpl.
  - exists s. split; [reflexivity|]. intros x. split; [tauto|].
    intros [H|[j [t [n [Hj _]]]]]; [exact H|]. destruct j; discriminate.
  - pose proof (Hbody 0%nat t eq_refl s) as H0. rewrite Z.add_0_r in H0.
    rewrite H0.
    destruct (IH (c0 + 1) (add_keys (gen c0 t) s)) as [s' [Hs' Hin]].
    { intros j t' Hj s1.
      replace (c0 + 1 + Z.of_nat j) with (c0 + Z.of_nat (S j)) by lia.
      apply (Hbody (S j) t' Hj). }
    exists s'. split; [exact Hs'|]. intros x. rewrite Hin, In_add_keys.
    split.
    + intros [[H|[n [Hn ->]]]|[j [t' [n [Hj [Hn ->]]]]]]; [tauto| |].
      * right. exists 0%nat, t, n. rewrite Z.add_0_r. auto.
      * right. exists (S j), t', n.
        replace (c0 + Z.of_nat (S j)) with (c0 + 1 + Z.of_nat j) by lia. auto.
    + intros [H|[[|j] [t' [n [Hj [Hn ->]]]]]]; [tauto| |].
      * simpl in Hj. inversion Hj; subst. rewrite Z.add_0_r in Hn. eauto.
      * right. exists j, t', n.
        replace (c0 + 1 + Z.of_nat j) with (c0 + Z.of_nat (S j)) by lia. auto.
Qed.

Lemma loop_rows_union (gen : Z -> Z -> tile -> list position)
    (body : Z -> Z -> tile -> list string -> option (list string))
    (rows : list (list tile)) (r0 : Z) (s : list string) :
  (forall i rw j t, nth_error rows i = Some rw -> nth_error rw j = Some t ->
     forall s, body (r0 + Z.of_nat i) (Z.of_nat j) t s =
               Some (add_keys (gen (r0 + Z.of_nat i) (Z.of_nat j) t) s)) ->
  exists s', loop_rows body r0 rows s = Some s' /\
    forall x, In x s' <-> In x s \/
      exists i rw j t n, nth_error rows i = Some rw /\ nth_error rw j = Some t /\
        In n (gen (r0 + Z.of_nat i) (Z.of_nat j) t) /\ x = cellKey n.
Proof.
  revert r0 s. induction rows as [|rw rows IH]; intros r0 s Hbody; simpl.
  - exists s. split; [reflexivity|]. intros x. split; [tauto|].
    intros [H|[i [rw [_ [_ [_ [Hi _]]]]]]]; [exact H|]. destruct i; discriminate.
  - destruct (loop_cols_union (gen r0) (body r0) rw 0 s) as [s1 [Hs1 Hin1]].
    { intros j t Hj s'. simpl.
      pose proof (Hbody 0%nat rw j t eq_refl Hj s') as H. rewrite Z.add_0_r in H.
      exact H. }
    rewrite Hs1.
    destruct (IH (r0 + 1) s1) as [s' [Hs' Hin]].
    { intros i rw' j t Hi Hj s2.
      replace (r0 + 1 + Z.of_nat i) with (r0 + Z.of_nat (S i)) by lia.
      apply (Hbody (S i) rw' j t Hi Hj). }
    exists s'. split; [exact Hs'|]. intros x. rewrite Hin, Hin1. simpl.
    split.
    + intros [[H|[j [t [n [Hj [Hn ->]]]]]]|[i [rw' [j [t [n [Hi [Hj [Hn ->]]]]]]]]];
        [tauto| |].
      * right. exists 0%nat, rw, j, t, n. rewrite Z.add_0_r. auto.
      * right. exists (S i), rw', j, t, n.
        replace (r0 + Z.of_nat (S i)) with (r0 + 1 + Z.of_nat i) by lia. auto.
    + intros [H|[[|i] [rw' [j [t [n [Hi [Hj [Hn ->]]]]]]]]]; [tauto| |].
      * simpl in Hi. inversion Hi; subst.
        replace (r0 + Z.of_nat 0) with r0 in Hn by lia.
        left. right. exists j, t, n. auto.
      * right. exists i, rw', j, t, n.
        replace (r0 + 1 + Z.of_nat i) with (r0 + Z.of_nat (S i)) by lia. auto.
Qed.

Lemma loop_board_union (gen : Z -> Z -> tile -> list position)
    (body : Z -> Z -> tile -> list string -> option (list string)) (b : board) :
  (forall r c t, tile_at b r c = Some t ->
     forall s, body r c t s = Some (add_keys (gen r c t) s)) ->
  exists s', loop_rows body 0 b [] = Some s' /\
    forall x, In x s' <->
      exists r c t n, tile_at b r c = Some t /\ In n (gen r c t) /\ x = cellKey n.
Proof.
  intros Hbody.
  destruct (loop_rows_union gen body b 0 []) as [s' [Hs' Hin]].
  { intros i rw j t Hi Hj s. apply Hbody. simpl.
    rewrite tile_at_nth, Hi. exact Hj. }
  exists s'. split; [exact Hs'|]. intros x. rewrite Hin. simpl. split.
  - intros [[]|[i [rw [j [t [n [Hi [Hj [Hn ->]]]]]]]]].
    exists (Z.of_nat i), (Z.of_nat j), t, n. rewrite tile_at_nth, Hi. auto.
  - intros [r [c [t [n [Ht [Hn ->]]]]]]. right.
    destruct (tile_at_nonneg b r c t Ht) as [Hr Hc].
    rewrite <- (Z2Nat.id r Hr), <- (Z2Nat.id c Hc) in Ht, Hn.
    rewrite tile_at_nth in Ht.
    destruct (nth_error b (Z.to_nat r)) as [rw|] eqn:Hi; [|discriminate].
    exists (Z.to_nat r), rw, (Z.to_nat c), t, n. auto.
Qed.

(** ** The two passes on a rectangular board *)

Lemma hidden_at_iff (b : board) (p : position) :
  hidden_at b p = true <-> state_at b (fst p) (snd p) = Some Hidden.
Proof.
  unfold hidden_at. destruct (state_at b (fst p) (snd p)) as [[|v]|];
    split; congruence.
Qed.

Lemma hidden_at_tile (b : board) (p : position) (t : tile) :
  tile_at b (fst p) (snd p) = Some t -> hidden_at b p = is_hidden t.
Proof.
  unfold hidden_at, state_at, is_hidden. intros ->. simpl.
  destruct (state t); reflexivity.
Qed.

(** The positions the first pass marks at one tile. *)
Definition pass1_gen (b : board) (r c : Z) (t : tile) : list position :=
  match state t with
  | Hidden => []
  | Number value =>
      let hid := filter (hidden_at b) (neighbors_of b r c) in
      if value =? Z.of_nat (List.length hid) then hid else []
  end.

(** The positions the second pass marks safe at one tile. *)
Definition pass2_gen (b : board) (mines : list string) (r c : Z) (t : tile)
    : list position :=
  match state t with
  | Hidden => []
  | Number value =>
      let ns := neighbors_of b r c in
      if Z.of_nat (List.length (filter (fun n => set_has (cellKey n) mines) ns)) =? value
      then filter (fun n => hidden_at b n && negb (set_has (cellKey n) mines)) ns
      else []
  end.

Lemma neighbors_tile (b : board) (r c : Z) (n : position) :
  rectangular b -> In n (neighbors_of b r c) ->
  exists t, tile_at b (fst n) (snd n) = Some t /\ hidden_at b n = is_hidden t.
Proof.
  intros Hrect Hn. unfold neighbors_of in Hn. apply filter_In in Hn as [_ Hn].
  destruct (tile_at_in_box b n Hrect Hn) as [t Ht].
  exists t. split; [exact Ht | apply hidden_at_tile, Ht].
Qed.

Lemma pass1_body_spec (b : board) (r c : Z) (t : tile) (s : list string) :
  rectangular b -> pass1_body b r c t s = Some (add_keys (pass1_gen b r c t) s).
Proof.
  intros Hrect. unfold pass1_body, pass1_gen.
  destruct (state t) as [|value]; [reflexivity|].
  rewrite getNeighbors_spec. cbv iota beta.
  rewrite (filterM_total _ (hidden_at b)).
  - destruct (value =? _); reflexivity.
  - intros n Hn. destruct (neighbors_tile b r c n Hrect Hn) as [t' [-> ->]].
    reflexivity.
Qed.

Lemma pass2_body_spec (b : board) (mines : list string) (r c : Z) (t : tile)
    (s : list string) :
  rectangular b ->
  pass2_body b mines r c t s = Some (add_keys (pass2_gen b mines r c t) s).
Proof.
  intros Hrect. unfold pass2_body, pass2_gen.
  destruct (state t) as [|value]; [reflexivity|].
  rewrite getNeighbors_spec. cbv iota beta zeta.
  destruct (_ =? value); [|reflexivity].
  rewrite (filterM_total _ (fun n => hidden_at b n && negb (set_has (cellKey n) mines))).
  - reflexivity.
  - intros n Hn. destruct (neighbors_tile b r c n Hrect Hn) as [t' [-> ->]].
    reflexivity.
Qed.

Lemma pass1_union (b : board) :
  rectangular b ->
  exists mines, pass1 b = Some mines /\
    forall x, In x mines <->
      exists r c t n, tile_at b r c = Some t /\ In n (pass1_gen b r c t) /\
                      x = cellKey n.
Proof.
  intros Hrect. apply loop_board_union. intros. apply pass1_body_spec, Hrect.
Qed.

Lemma pass2_union (b : board) (mines : list string) :
  rectangular b ->
  exists safe, pass2 b mines = Some safe /\
    forall x, In x safe <->
      exists r c t n, tile_at b r c = Some t /\ In n (pass2_gen b mines r c t) /\
                      x = cellKey n.
Proof.
  intros Hrect. apply loop_board_union. intros. apply pass2_body_spec, Hrect.
Qed.

(** ** Invariants of the passes on any board *)

(** Every key is the key of a hidden tile inside the bounds of [getNeighbors]
    that satisfies [P]. *)
Definition keys_ok (b : board) (P : position -> Prop) (s : list string) : Prop :=
  forall k, In k s -> exists n, k = cellKey n /\
    0 <= fst n < Z.of_nat (List.length b) /\ 0 <= snd n < width0 b /\
    state_at b (fst n) (snd n) = Some Hidden /\ P n.

Lemma keys_ok_add (b : board) (P : position -> Prop) (ps : list position)
    (s : list string) :
  keys_ok b P s ->
  (forall n, In n ps ->
     0 <= fst n < Z.of_nat (List.length b) /\ 0 <= snd n < width0 b /\
     state_at b (fst n) (snd n) = Some Hidden /\ P n) ->
  keys_ok b P (add_keys ps s).
Proof.
  intros Hs Hps k Hk. apply In_add_keys in Hk as [Hk|[n [Hn ->]]].
  - apply Hs, Hk.
  - exists n. split; [reflexivity | apply Hps, Hn].
Qed.

Lemma tile_hidden_state (b : board) (n : position) (t : tile) :
  tile_at b (fst n) (snd n) = Some t -> is_hidden t = true ->
  state_at b (fst n) (snd n) = Some Hidden.
Proof.
  intros Ht Hh. apply hidden_at_iff. rewrite (hidden_at_tile b n t Ht). exact Hh.
Qed.

(** Name the [filterM] call of a pass body and drop its throwing branch. *)
Ltac case_filterM H l E :=
  match type of H with
  | context [filterM ?f ?ns] =>
      destruct (filterM f ns) as [l|] eqn:E; [|discriminate]
  end.

Lemma pass1_keys_ok (b : board) (mines : list string) :
  pass1 b = Some mines -> keys_ok b (fun _ => True) mines.
Proof.
  unfold pass1. apply loop_rows_inv; [|intros k []].
  intros r c t s s' Hs H. unfold pass1_body in H.
  destruct (state t) as [|value]; [inversion H; subst; exact Hs|].
  destruct (getNeighbors b r c) as [ns|] eqn:Hns; [|discriminate].
  case_filterM H hid Hhid.
  destruct (value =? _); inversion H; subst; [|exact Hs].
  apply keys_ok_add; [exact Hs|]. intros n Hn.
  destruct (filterM_sound _ _ _ Hhid n Hn) as [Hin Hf].
  destruct (getNeighbors_bounds b r c ns n Hns Hin) as [Hr Hc].
  destruct (tile_at b (fst n) (snd n)) as [t'|] eqn:Ht; [|discriminate].
  inversion Hf. repeat split; try lia.
  apply (tile_hidden_state b n t'); assumption.
Qed.

Lemma pass2_keys_ok (b : board) (mines safe : list string) :
  pass2 b mines = Some safe ->
  keys_ok b (fun n => ~ In (cellKey n) mines) safe.
Proof.
  unfold pass2. apply loop_rows_inv; [|intros k []].
  intros r c t s s' Hs H. unfold pass2_body in H.
  destruct (state t) as [|value]; [inversion H; subst; exact Hs|].
  destruct (getNeighbors b r c) as [ns|] eqn:Hns; [|discriminate].
  destruct (_ =? value); [|inversion H; subst; exact Hs].
  case_filterM H hid Hhid.
  inversion H; subst.
  apply keys_ok_add; [exact Hs|]. intros n Hn.
  destruct (filterM_sound _ _ _ Hhid n Hn) as [Hin Hf].
  destruct (getNeighbors_bounds b r c ns n Hns Hin) as [Hr Hc].
  destruct (tile_at b (fst n) (snd n)) as [t'|] eqn:Ht; [|discriminate].
  inversion Hf as [Hf']. apply andb_prop in Hf' as [Hh Hm].
  apply negb_true_iff in Hm. repeat split; try lia.
  - apply (tile_hidden_state b n t'); assumption.
  - rewrite <- set_has_In. congruence.
Qed.

Lemma pass_NoDup (b : board) (body : Z -> Z -> tile -> list string -> option (list string))
    (s : list string) :
  (forall r c t s s', body r c t s = Some s' ->
     exists ps, s' = add_keys ps s) ->
  loop_rows body 0 b [] = Some s -> NoDup s.
Proof.
  intros Hbody. apply loop_rows_inv; [|constructor].
  intros r c t s1 s2 Hs1 H. destruct (Hbody r c t s1 s2 H) as [ps ->].
  apply NoDup_add_keys, Hs1.
Qed.

Lemma pass1_body_adds (b : board) (r c : Z) (t : tile) (s s' : list string) :
  pass1_body b r c t s = Some s' -> exists ps, s' = add_keys ps s.
Proof.
  unfold pass1_body. intros H.
  destruct (state t) as [|value]; [inversion H; subst; exists []; reflexivity|].
  destruct (getNeighbors b r c) as [ns|]; [|discriminate].
  case_filterM H hid Hhid.
  destruct (value =? _); inversion H; subst; [exists hid | exists []]; reflexivity.
Qed.

Lemma pass2_body_adds (b : board) (mines : list string) (r c : Z) (t : tile)
    (s s' : list string) :
  pass2_body b mines r c t s = Some s' -> exists ps, s' = add_keys ps s.
Proof.
  unfold pass2_body. intros H.
  destruct (state t) as [|value]; [inversion H; subst; exists []; reflexivity|].
  destruct (getNeighbors b r c) as [ns|]; [|discriminate].
  destruct (_ =? value); [|inversion H; subst; exists []; reflexivity].
  case_filterM H hid Hhid. inversion H; subst. exists hid. reflexivity.
Qed.

Lemma findMoves_Some (b : board) (res : moves) :
  findMoves b = Some res ->
  exists mines safe, pass1 b = Some mines /\ pass2 b mines = Some safe /\
    safeCells res = map decodeKey safe /\ mineCells res = map decodeKey mines.
Proof.
  unfold findMoves. intros H.
  destruct (pass1 b) as [mines|] eqn:H1; [|discriminate].
  destruct (pass2 b mines) as [safe|] eqn:H2; [|discriminate].
  inversion H; subst. exists mines, safe. auto.
Qed.

Lemma keys_ok_cellKey (b : board) (P : position -> Prop) (s : list string) :
  keys_ok b P s -> forall k, In k s -> exists n, k = cellKey n.
Proof.
  intros Hs k Hk. destruct (Hs k Hk) as [n [-> _]]. eauto.
Qed.

Lemma state_at_Number (b : board) (r c v : Z) :
  state_at b r c = Some (Number v) <->
  exists t, tile_at b r c = Some t /\ state t = Number v.
Proof.
  unfold state_at. destruct (tile_at b r c) as [t|]; simpl; split.
  - intros H. inversion H. eauto.
  - intros [t' [H Hs]]. inversion H; subst. rewrite Hs. reflexivity.
  - discriminate.
  - intros [t' [H _]]. discriminate.
Qed.

(** Board 3 of [runSolverOnExampleBoards], with a hidden cell swapped:
    [1 . 1 / 1 1 .]. *)
Definition boardD : board :=
  mk_board [[Number 1; Hidden; Number 1]; [Number 1; Number 1; Hidden]].

Lemma boardD_rectangular : rectangular boardD.
Proof.
  intros rw Hrw. simpl in Hrw. destruct Hrw as [<-|[<-|[]]]; reflexivity.
Qed.

Lemma scenarioC_rectangular : rectangular scenarioC.
Proof.
  intros rw Hrw. simpl in Hrw. destruct Hrw as [<-|[<-|[]]]; reflexivity.
Qed.

(** * The claims *)

(** ** C1 *)

(** Claim C1: on a rectangular board, a position is in the returned mine
    set exactly when it is a hidden neighbour of a numbered tile whose value
    equals the number of its hidden neighbours (Rule 1, first pass). *)
Theorem findMoves_mines_rule1 (b : board) (res : moves) :
  rectangular b -> findMoves b = Some res ->
  forall p : position,
    In (out_pos p) (mineCells res) <->
    exists r c v ns,
      state_at b r c = Some (Number v) /\ getNeighbors b r c = Some ns /\
      In p ns /\ state_at b (fst p) (snd p) = Some Hidden /\
      v = Z.of_nat (List.length (filter (hidden_at b) ns)).
Proof.
  intros Hrect H p.
  destruct (findMoves_Some b res H) as [mines [safe [H1 [_ [_ ->]]]]].
  destruct (pass1_union b Hrect) as [mines' [H1' Hin]].
  rewrite H1 in H1'. inversion H1'; subst mines'.
  rewrite In_decode_keys by exact (keys_ok_cellKey _ _ _ (pass1_keys_ok b mines H1)).
  rewrite Hin. split.
  - intros [r [c [t [n [Ht [Hn Hk]]]]]]. apply cellKey_inj in Hk. subst n.
    unfold pass1_gen in Hn. destruct (state t) as [|v] eqn:Hst; [destruct Hn|].
    destruct (v =? _) eqn:Hv; [|destruct Hn].
    apply Z.eqb_eq in Hv. apply filter_In in Hn as [Hn Hh].
    exists r, c, v, (neighbors_of b r c). repeat split.
    + apply state_at_Number. eauto.
    + apply getNeighbors_spec.
    + exact Hn.
    + apply hidden_at_iff, Hh.
    + exact Hv.
  - intros [r [c [v [ns [Hrc [Hns [Hp [Hh Hv]]]]]]]].
    rewrite getNeighbors_spec in Hns. inversion Hns; subst ns.
    apply state_at_Number in Hrc as [t [Ht Hst]].
    exists r, c, t, p. split; [exact Ht|]. split; [|reflexivity].
    unfold pass1_gen. rewrite Hst, <- Hv, Z.eqb_refl.
    apply filter_In. split; [exact Hp | apply hidden_at_iff, Hh].
Qed.

Lemma findMoves_mines_rule1_witness :
  rectangular scenarioC /\
  findMoves scenarioC = Some (mk_moves [] [out_pos (0, 1); out_pos (1, 1)]) /\
  (In (out_pos (0, 1)) [out_pos (0, 1); out_pos (1, 1)] <->
   exists r c v ns,
     state_at scenarioC r c = Some (Number v) /\ getNeighbors scenarioC r c = Some ns /\
     In (0, 1) ns /\ state_at scenarioC 0 1 = Some Hidden /\
     v = Z.of_nat (List.length (filter (hidden_at scenarioC) ns))).
Proof.
  split; [exact scenarioC_rectangular|]. split; [vm_compute; reflexivity|].
  apply (findMoves_mines_rule1 scenarioC (mk_moves [] [out_pos (0, 1); out_pos (1, 1)]));
    [exact scenarioC_rectangular | vm_compute; reflexivity].
Defined.

(** ** C2 *)

(** Claim C2: on a rectangular board, the second pass consults exactly the
    completed first-pass mine set (which is also the returned mine set), and
    a position is returned safe exactly when it is hidden, not a first-pass
    mine, and a neighbour of a numbered tile whose count of first-pass mine
    neighbours equals its value. *)
Theorem findMoves_safe_rule2 (b : board) (res : moves) :
  rectangular b -> findMoves b = Some res ->
  exists mines, pass1 b = Some mines /\ mineCells res = map decodeKey mines /\
  forall p : position,
    In (out_pos p) (safeCells res) <->
    state_at b (fst p) (snd p) = Some Hidden /\ ~ In (cellKey p) mines /\
    exists r c v ns,
      state_at b r c = Some (Number v) /\ getNeighbors b r c = Some ns /\
      In p ns /\
      v = Z.of_nat (List.length (filter (fun n => set_has (cellKey n) mines) ns)).
Proof.
  intros Hrect H.
  destruct (findMoves_Some b res H) as [mines [safe [H1 [H2 [-> ->]]]]].
  exists mines. split; [exact H1|]. split; [reflexivity|]. intros p.
  destruct (pass2_union b mines Hrect) as [safe' [H2' Hin]].
  rewrite H2 in H2'. inversion H2'; subst safe'.
  rewrite In_decode_keys by exact (keys_ok_cellKey _ _ _ (pass2_keys_ok b mines safe H2)).
  rewrite Hin. split.
  - intros [r [c [t [n [Ht [Hn Hk]]]]]]. apply cellKey_inj in Hk. subst n.
    unfold pass2_gen in Hn. destruct (state t) as [|v] eqn:Hst; [destruct Hn|].
    destruct (_ =? v) eqn:Hv; [|destruct Hn].
    apply Z.eqb_eq in Hv. apply filter_In in Hn as [Hn Hh].
    apply andb_prop in Hh as [Hh Hm]. apply negb_true_iff in Hm.
    split; [apply hidden_at_iff, Hh|]. split.
    + rewrite <- set_has_In. congruence.
    + exists r, c, v, (neighbors_of b r c). repeat split.
      * apply state_at_Number. eauto.
      * apply getNeighbors_spec.
      * exact Hn.
      * symmetry. exact Hv.
  - intros [Hh [Hm [r [c [v [ns [Hrc [Hns [Hp Hv]]]]]]]]].
    rewrite getNeighbors_spec in Hns. inversion Hns; subst ns.
    apply state_at_Number in Hrc as [t [Ht Hst]].
    exists r, c, t, p. split; [exact Ht|]. split; [|reflexivity].
    unfold pass2_gen. cbv zeta. rewrite Hst, Hv, Z.eqb_refl.
    apply filter_In. split; [exact Hp|].
    apply andb_true_intro. split; [apply hidden_at_iff, Hh|].
    apply negb_true_iff. destruct (set_has (cellKey p) mines) eqn:E; [|reflexivity].
    apply set_has_In in E. contradiction.
Qed.

Lemma findMoves_safe_rule2_witness :
  rectangular boardD /\
  findMoves boardD = Some (mk_moves [out_pos (1, 2)] [out_pos (0, 1)]) /\
  exists mines, pass1 boardD = Some mines /\ [out_pos (0, 1)] = map decodeKey mines /\
  (In (out_pos (1, 2)) [out_pos (1, 2)] <->
   state_at boardD 1 2 = Some Hidden /\ ~ In (cellKey (1, 2)) mines /\
   exists r c v ns,
     state_at boardD r c = Some (Number v) /\ getNeighbors boardD r c = Some ns /\
     In (1, 2) ns /\
     v = Z.of_nat (List.length (filter (fun n => set_has (cellKey n) mines) ns))).
Proof.
  split; [exact boardD_rectangular|]. split; [vm_compute; reflexivity|].
  destruct (findMoves_safe_rule2 boardD (mk_moves [out_pos (1, 2)] [out_pos (0, 1)])
              boardD_rectangular ltac:(vm_compute; reflexivity)) as [mines [H1 [H2 H3]]].
  exists mines. split; [exact H1|]. split; [exact H2|]. apply (H3 (1, 2)).
Defined.

(** ** C3 *)

(** Claim C3: the returned safe and mine arrays are disjoint, on every board
    for which [findMoves] returns. *)
Theorem findMoves_disjoint (b : board) (res : moves) :
  findMoves b = Some res ->
  forall x, In x (safeCells res) -> ~ In x (mineCells res).
Proof.
  intros H x Hs Hm.
  destruct (findMoves_Some b res H) as [mines [safe [H1 [H2 [Es Em]]]]].
  rewrite Es in Hs. rewrite Em in Hm.
  apply in_map_iff in Hs as [k1 [Hd1 Hk1]].
  apply in_map_iff in Hm as [k2 [Hd2 Hk2]].
  destruct (pass2_keys_ok b mines safe H2 k1 Hk1) as [n1 [-> [_ [_ [_ Hn1]]]]].
  destruct (pass1_keys_ok b mines H1 k2 Hk2) as [n2 [-> _]].
  rewrite !decodeKey_cellKey in Hd1, Hd2. rewrite <- Hd2 in Hd1.
  apply out_pos_inj in Hd1. subst. contradiction.
Qed.

Lemma findMoves_disjoint_witness :
  findMoves boardD = Some (mk_moves [out_pos (1, 2)] [out_pos (0, 1)]) /\
  In (out_pos (1, 2)) [out_pos (1, 2)] /\ ~ In (out_pos (1, 2)) [out_pos (0, 1)].
Proof.
  split; [vm_compute; reflexivity|]. split; [simpl; auto|].
  apply (findMoves_disjoint boardD (mk_moves [out_pos (1, 2)] [out_pos (0, 1)]));
    [vm_compute; reflexivity | simpl; auto].
Defined.

(** ** C4 *)

Lemma directions_shift (r c : Z) :
  map (shift r c) directions =
  [(r - 1, c - 1); (r - 1, c); (r - 1, c + 1); (r, c - 1); (r, c + 1);
   (r + 1, c - 1); (r + 1, c); (r + 1, c + 1)].
Proof.
  unfold directions, shift; simpl.
  repeat (apply f_equal2; [apply f_equal2; lia|]). reflexivity.
Qed.

(** Claim C4: for every board and all integers [row], [col], [getNeighbors]
    returns (without throwing) positions inside [[0, board.length) x [0, width
    of row 0)], none equal to [(row, col)], at most 8 of them, as a
    subsequence of the eight offsets in their fixed order. *)
Theorem getNeighbors_in_bounds (b : board) (r c : Z) :
  exists ns, getNeighbors b r c = Some ns /\
    (forall p, In p ns ->
       0 <= fst p < Z.of_nat (List.length b) /\ 0 <= snd p < width0 b /\
       p <> (r, c)) /\
    (List.length ns <= 8)%nat /\
    subseq ns [(r - 1, c - 1); (r - 1, c); (r - 1, c + 1); (r, c - 1); (r, c + 1);
               (r + 1, c - 1); (r + 1, c); (r + 1, c + 1)].
Proof.
  exists (neighbors_of b r c). split; [apply getNeighbors_spec|].
  unfold neighbors_of. rewrite directions_shift. split; [|split].
  - intros p Hp. apply filter_In in Hp as [Hp Hbox].
    apply in_box_bounds in Hbox as [Hr Hc]. split; [exact Hr|]. split; [exact Hc|].
    simpl in Hp.
    repeat (destruct Hp as [<-|Hp]; [intros Heq; inversion Heq; lia|]).
    destruct Hp.
  - exact (subseq_length _ _ (subseq_filter (in_box b) _)).
  - apply subseq_filter.
Qed.

(** ** C5 *)

(** Claim C5: on every rectangular board [findMoves] returns a result (no
    [TypeError]; termination is that of the Rocq function), and on the board
    with no rows it returns two empty arrays. *)
Theorem findMoves_total :
  (forall b : board, rectangular b -> exists res, findMoves b = Some res) /\
  findMoves [] = Some (mk_moves [] []).
Proof.
  split; [|reflexivity].
  intros b Hrect.
  destruct (pass1_union b Hrect) as [mines [H1 _]].
  destruct (pass2_union b mines Hrect) as [safe [H2 _]].
  unfold findMoves. rewrite H1, H2. eauto.
Qed.

Lemma findMoves_total_witness :
  exists res, findMoves scenarioC = Some res.
Proof.
  exact (proj1 findMoves_total scenarioC scenarioC_rectangular).
Defined.

(** ** C6 *)

(** Claim C6: Scenario C ([2 . . / 1 . .]) gives the mines (0,1) and (1,1)
    and no safe cell; the clue 1 at (1,0) sees two first-pass mines and
    leaves both sets unchanged in both passes. *)
Theorem scenarioC_moves :
  findMoves scenarioC = Some (mk_moves [] [out_pos (0, 1); out_pos (1, 1)]) /\
  tile_at scenarioC 1 0 = Some (mk_tile 1 0 (Number 1)) /\
  exists mines, pass1 scenarioC = Some mines /\
    List.length (filter (fun n => set_has (cellKey n) mines) (neighbors_of scenarioC 1 0))
      = 2%nat /\
    forall s,
      pass1_body scenarioC 1 0 (mk_tile 1 0 (Number 1)) s = Some s /\
      pass2_body scenarioC mines 1 0 (mk_tile 1 0 (Number 1)) s = Some s.
Proof.
  split; [vm_compute; reflexivity|]. split; [vm_compute; reflexivity|].
  exists ["0_1"; "1_1"]%string. split; [vm_compute; reflexivity|].
  split; [vm_compute; reflexivity|].
  intros s. split; vm_compute; reflexivity.
Qed.

(** ** C7 *)

(** Claim C7: both returned arrays are free of duplicates, and decoding a
    key [`${row}_${col}`] with [split('_').map(Number)] gives back the
    integer coordinates. *)
Theorem findMoves_no_duplicates (b : board) (res : moves) :
  findMoves b = Some res ->
  NoDup (safeCells res) /\ NoDup (mineCells res) /\
  forall r c : Z, decodeKey (cellKey (r, c)) = (JNum r, JNum c).
Proof.
  intros H.
  destruct (findMoves_Some b res H) as [mines [safe [H1 [H2 [-> ->]]]]].
  split; [|split].
  - apply NoDup_decode_keys.
    + exact (keys_ok_cellKey _ _ _ (pass2_keys_ok b mines safe H2)).
    + apply (pass_NoDup b (pass2_body b mines)); [apply pass2_body_adds | exact H2].
  - apply NoDup_decode_keys.
    + exact (keys_ok_cellKey _ _ _ (pass1_keys_ok b mines H1)).
    + apply (pass_NoDup b (pass1_body b)); [apply pass1_body_adds | exact H1].
  - intros r c. apply (decodeKey_cellKey (r, c)).
Qed.

Lemma findMoves_no_duplicates_witness :
  findMoves scenarioC = Some (mk_moves [] [out_pos (0, 1); out_pos (1, 1)]) /\
  NoDup ([] : list (jsval * jsval)) /\ NoDup [out_pos (0, 1); out_pos (1, 1)].
Proof.
  split; [vm_compute; reflexivity|].
  destruct (findMoves_no_duplicates scenarioC (mk_moves [] [out_pos (0, 1); out_pos (1, 1)])
              ltac:(vm_compute; reflexivity)) as [Hs [Hm _]].
  split; [exact Hs | exact Hm].
Defined.

(** ** C8 *)

(** Claim C8: [findMoves] is deterministic: equal boards give equal results,
    arrays and their order included. The sets live inside the call, so the
    result depends on the board alone. *)
Theorem findMoves_deterministic (b1 b2 : board) :
  b1 = b2 -> findMoves b1 = findMoves b2.
Proof. intros ->. reflexivity. Qed.

Lemma findMoves_deterministic_witness :
  findMoves scenarioC = findMoves scenarioC.
Proof. exact (findMoves_deterministic scenarioC scenarioC eq_refl). Defined.

(** ** C9 *)

(** Claim C9: every returned position, safe or mine, is inside the board and
    is a hidden tile of the input board; no numbered tile is ever returned. *)
Theorem findMoves_outputs_hidden (b : board) (res : moves) :
  findMoves b = Some res ->
  (forall x, In x (safeCells res) \/ In x (mineCells res) ->
     exists p, x = out_pos p /\
       0 <= fst p < Z.of_nat (List.length b) /\ 0 <= snd p < width0 b /\
       state_at b (fst p) (snd p) = Some Hidden) /\
  (forall r c v, state_at b r c = Some (Number v) ->
     ~ In (out_pos (r, c)) (safeCells res) /\ ~ In (out_pos (r, c)) (mineCells res)).
Proof.
  intros H.
  destruct (findMoves_Some b res H) as [mines [safe [H1 [H2 [Es Em]]]]].
  assert (Hout : forall x, In x (safeCells res) \/ In x (mineCells res) ->
     exists p, x = out_pos p /\
       0 <= fst p < Z.of_nat (List.length b) /\ 0 <= snd p < width0 b /\
       state_at b (fst p) (snd p) = Some Hidden).
  { intros x [Hx|Hx].
    - rewrite Es in Hx. apply in_map_iff in Hx as [k [<- Hk]].
      destruct (pass2_keys_ok b mines safe H2 k Hk) as [n [-> [Hr [Hc [Hh _]]]]].
      exists n. rewrite decodeKey_cellKey. auto.
    - rewrite Em in Hx. apply in_map_iff in Hx as [k [<- Hk]].
      destruct (pass1_keys_ok b mines H1 k Hk) as [n [-> [Hr [Hc [Hh _]]]]].
      exists n. rewrite decodeKey_cellKey. auto. }
  split; [exact Hout|].
  intros r c v Hrc. split; intros Hin.
  - destruct (Hout _ (or_introl Hin)) as [p [Hp [_ [_ Hh]]]].
    apply out_pos_inj in Hp. subst p. simpl in Hh. congruence.
  - destruct (Hout _ (or_intror Hin)) as [p [Hp [_ [_ Hh]]]].
    apply out_pos_inj in Hp. subst p. simpl in Hh. congruence.
Qed.

Lemma findMoves_outputs_hidden_witness :
  findMoves boardD = Some (mk_moves [out_pos (1, 2)] [out_pos (0, 1)]) /\
  exists p, out_pos (1, 2) = out_pos p /\
    0 <= fst p < 2 /\ 0 <= snd p < width0 boardD /\
    state_at boardD (fst p) (snd p) = Some Hidden.
Proof.
  split; [vm_compute; reflexivity|].
  destruct (findMoves_outputs_hidden boardD (mk_moves [out_pos (1, 2)] [out_pos (0, 1)])
              ltac:(vm_compute; reflexivity)) as [Hout _].
  exact (Hout (out_pos (1, 2)) (or_introl (or_introl eq_refl))).
Defined.

(** ** C10 *)

Lemma filter_all_false {A : Type} (f : A -> bool) (l : list A) :
  (forall x, In x l -> f x = false) -> filter f l = [].
Proof.
  induction l as [|x l IH]; intros H; simpl; [reflexivity|].
  rewrite (H x (or_introl eq_refl)). apply IH. intros; apply H; simpl; auto.
Qed.

(** Claim C10: on a board with no rows the bounds test never reads
    [board[0]] (it answers [false] before, for every candidate), so
    [getNeighbors] returns the empty array for every [row] and [col]. *)
Theorem getNeighbors_empty_board (r c : Z) :
  (forall newRow newCol, bounds_check [] newRow newCol = Some false) /\
  getNeighbors [] r c = Some [].
Proof.
  split.
  - intros newRow newCol. unfold bounds_check. simpl.
    destruct (0 <=? newRow) eqn:E1, (newRow <? 0) eqn:E2; simpl; try reflexivity.
    apply Z.leb_le in E1. apply Z.ltb_lt in E2. lia.
  - rewrite getNeighbors_spec. unfold neighbors_of. f_equal. apply filter_all_false.
    intros p _. destruct (in_box [] p) eqn:E; [|reflexivity].
    apply in_box_bounds in E as [[H1 H2] _]. simpl in H2. lia.
Qed.

(** * Further properties of the solver *)

(** ** The neighbourhood of [getNeighbors] *)

Lemma NoDup_map_inj {A B : Type} (f : A -> B) (l : list A) :
  (forall x y, f x = f y -> x = y) -> NoDup l -> NoDup (map f l).
Proof.
  intros Hf. induction 1 as [|x l Hx Hl IH]; simpl; constructor; auto.
  rewrite in_map_iff. intros [y [Hy Hin]]. apply Hf in Hy. subst. contradiction.
Qed.

Lemma directions_NoDup : NoDup directions.
Proof. unfold directions. repeat constructor; simpl; intuition discriminate. Qed.

(** [getNeighbors] returns exactly the cells inside the bounds (rows of the
    board, columns of row 0) at distance at most one in both coordinates,
    other than the cell itself, each of them once. *)
Theorem getNeighbors_exact (b : board) (r c : Z) :
  exists ns, getNeighbors b r c = Some ns /\ NoDup ns /\
  forall q : position,
    In q ns <->
    0 <= fst q < Z.of_nat (List.length b) /\ 0 <= snd q < width0 b /\
    Z.abs (fst q - r) <= 1 /\ Z.abs (snd q - c) <= 1 /\ q <> (r, c).
Proof.
  exists (neighbors_of b r c). split; [apply getNeighbors_spec|]. split.
  - unfold neighbors_of. apply NoDup_filter, NoDup_map_inj; [|exact directions_NoDup].
    intros [x1 y1] [x2 y2] H. unfold shift in H; simpl in H.
    inversion H. f_equal; lia.
  - intros [x y]. unfold neighbors_of. rewrite filter_In, directions_shift. simpl.
    split.
    + intros [Hin Hbox]. apply in_box_bounds in Hbox as [Hx Hy]. simpl in Hx, Hy.
      repeat (destruct Hin as [Heq|Hin];
              [inversion Heq; subst; repeat split; try lia; intros Heq'; inversion Heq'; lia|]).
      destruct Hin.
    + intros [Hx [Hy [Hdx [Hdy Hne]]]]. split.
      * assert (x = r - 1 \/ x = r \/ x = r + 1) as [-> | [-> | ->]] by lia;
        assert (y = c - 1 \/ y = c \/ y = c + 1) as [-> | [-> | ->]] by lia;
        try (exfalso; apply Hne; reflexivity); tauto.
      * unfold in_box; simpl.
        repeat (apply andb_true_intro; split); first [apply Z.leb_le | apply Z.ltb_lt]; lia.
Qed.

(** ** When [findMoves] throws *)

Lemma filterM_None {A : Type} (f : A -> option bool) (l : list A) :
  filterM f l = None <-> exists x, In x l /\ f x = None.
Proof.
  induction l as [|x l IH]; simpl.
  - split; [discriminate|]. intros [y [[] _]].
  - destruct (f x) as [keep|] eqn:Ef.
    + destruct (filterM f l) as [rest|] eqn:Er.
      * split; [discriminate|]. intros [y [[<-|Hy] Hfy]]; [congruence|].
        assert (Hn : Some rest = None) by (apply IH; eauto). discriminate.
      * split; [|reflexivity]. intros _. destruct (proj1 IH eq_refl) as [y [Hy Hfy]].
        eauto.
    + split; [|reflexivity]. intros _. eauto.
Qed.

Section LoopNone.
Context {St : Type}.

Lemma loop_cols_none (F : Z -> tile -> Prop) (body : Z -> tile -> St -> option St) :
  (forall c t s, body c t s = None <-> F c t) ->
  forall rw c0 s, loop_cols body c0 rw s = None <->
    exists j t, nth_error rw j = Some t /\ F (c0 + Z.of_nat j) t.
Proof.
  intros HF rw. induction rw as [|t rw IH]; intros c0 s; simpl.
  - split; [discriminate|]. intros [[|j] [t [Hj _]]]; discriminate.
  - destruct (body c0 t s) as [s'|] eqn:Eb.
    + rewrite IH. split.
      * intros [j [t' [Hj Hf]]]. exists (S j), t'. split; [exact Hj|].
        replace (c0 + Z.of_nat (S j)) with (c0 + 1 + Z.of_nat j) by lia. exact Hf.
      * intros [[|j] [t' [Hj Hf]]].
        -- simpl in Hj. inversion Hj; subst. rewrite Z.add_0_r in Hf.
           apply (HF c0 t' s) in Hf. congruence.
        -- exists j, t'. split; [exact Hj|].
           replace (c0 + 1 + Z.of_nat j) with (c0 + Z.of_nat (S j)) by lia. exact Hf.
    + split; [|reflexivity]. intros _. exists 0%nat, t. split; [reflexivity|].
      rewrite Z.add_0_r. apply (HF c0 t s), Eb.
Qed.

Lemma loop_rows_none (F : Z -> Z -> tile -> Prop)
    (body : Z -> Z -> tile -> St -> option St) :
  (forall r c t s, body r c t s = None <-> F r c t) ->
  forall rows r0 s, loop_rows body r0 rows s = None <->
    exists i rw j t, nth_error rows i = Some rw /\ nth_error rw j = Some t /\
                     F (r0 + Z.of_nat i) (Z.of_nat j) t.
Proof.
  intros HF rows. induction rows as [|rw rows IH]; intros r0 s; simpl.
  - split; [discriminate|]. intros [[|i] [rw [j [t [Hi _]]]]]; discriminate.
  - assert (Hc := loop_cols_none (F r0) (body r0) (HF r0) rw 0 s).
    destruct (loop_cols (body r0) 0 rw s) as [s'|] eqn:Eb.
    + rewrite IH. split.
      * intros [i [rw' [j [t [Hi [Hj Hf]]]]]]. exists (S i), rw', j, t.
        split; [exact Hi|]. split; [exact Hj|].
        replace (r0 + Z.of_nat (S i)) with (r0 + 1 + Z.of_nat i) by lia. exact Hf.
      * intros [[|i] [rw' [j [t [Hi [Hj Hf]]]]]].
        -- simpl in Hi. inversion Hi; subst. rewrite Z.add_0_r in Hf.
           assert (Hn : Some s' = None) by (apply Hc; eauto). discriminate.
        -- exists i, rw', j, t. split; [exact Hi|]. split; [exact Hj|].
           replace (r0 + 1 + Z.of_nat i) with (r0 + Z.of_nat (S i)) by lia. exact Hf.
    + split; [|reflexivity]. intros _.
      destruct (proj1 Hc eq_refl) as [j [t [Hj Hf]]].
      exists 0%nat, rw, j, t. rewrite Z.add_0_r. auto.
Qed.

Lemma loop_board_none (F : Z -> Z -> tile -> Prop)
    (body : Z -> Z -> tile -> St -> option St) (b : board) (s : St) :
  (forall r c t s, body r c t s = None <-> F r c t) ->
  loop_rows body 0 b s = None <->
  exists r c t, tile_at b r c = Some t /\ F r c t.
Proof.
  intros HF. rewrite (loop_rows_none F body HF b 0 s). simpl. split.
  - intros [i [rw [j [t [Hi [Hj Hf]]]]]].
    exists (Z.of_nat i), (Z.of_nat j), t. rewrite tile_at_nth, Hi. auto.
  - intros [r [c [t [Ht Hf]]]].
    destruct (tile_at_nonneg b r c t Ht) as [Hr Hc].
    rewrite <- (Z2Nat.id r Hr), <- (Z2Nat.id c Hc) in Ht, Hf.
    rewrite tile_at_nth in Ht.
    destruct (nth_error b (Z.to_nat r)) as [rw|] eqn:Hi; [|discriminate].
    exists (Z.to_nat r), rw, (Z.to_nat c), t. auto.
Qed.

End LoopNone.

(** A numbered tile one of whose neighbours (inside the bounds of
    [getNeighbors]) is missing from the board. *)
Definition clue_sees_gap (b : board) (r c : Z) (t : tile) : Prop :=
  exists v, state t = Number v /\
  exists n, In n (neighbors_of b r c) /\ tile_at b (fst n) (snd n) = None.

Lemma pass1_body_None (b : board) (r c : Z) (t : tile) (s : list string) :
  pass1_body b r c t s = None <-> clue_sees_gap b r c t.
Proof.
  unfold pass1_body, clue_sees_gap.
  destruct (state t) as [|v].
  - split; [discriminate|]. intros [v [Hv _]]. discriminate.
  - rewrite getNeighbors_spec. cbv iota beta.
    match goal with |- context [filterM ?f ?l] => destruct (filterM f l) eqn:E end.
    + split; [destruct (v =? _); discriminate|].
      intros [v' [_ [n [Hn Ht]]]].
      assert (Hnone : filterM (fun n => neighborTile <- tile_at b (fst n) (snd n) ;;
                                 Some (is_hidden neighborTile)) (neighbors_of b r c) = None)
        by (apply filterM_None; exists n; rewrite Ht; auto).
      congruence.
    + split; [|reflexivity]. intros _. exists v. split; [reflexivity|].
      apply filterM_None in E as [n [Hn Hf]]. exists n. split; [exact Hn|].
      destruct (tile_at b (fst n) (snd n)); [discriminate | reflexivity].
Qed.

Lemma pass2_body_None_gap (b : board) (mines : list string) (r c : Z) (t : tile)
    (s : list string) :
  pass2_body b mines r c t s = None -> clue_sees_gap b r c t.
Proof.
  unfold pass2_body, clue_sees_gap. intros H.
  destruct (state t) as [|v]; [discriminate|].
  rewrite getNeighbors_spec in H. cbv iota beta zeta in H.
  destruct (_ =? v); [|discriminate].
  match type of H with context [filterM ?f ?l] => destruct (filterM f l) eqn:E end;
    [discriminate|].
  exists v. split; [reflexivity|].
  apply filterM_None in E as [n [Hn Hf]]. exists n. split; [exact Hn|].
  destruct (tile_at b (fst n) (snd n)); [discriminate | reflexivity].
Qed.

Lemma findMoves_None_iff (b : board) :
  findMoves b = None <->
  exists r c v ns n,
    state_at b r c = Some (Number v) /\ getNeighbors b r c = Some ns /\
    In n ns /\ tile_at b (fst n) (snd n) = None.
Proof.
  assert (Hgap : (exists r c t, tile_at b r c = Some t /\ clue_sees_gap b r c t) <->
    exists r c v ns n,
      state_at b r c = Some (Number v) /\ getNeighbors b r c = Some ns /\
      In n ns /\ tile_at b (fst n) (snd n) = None).
  { split.
    - intros [r [c [t [Ht [v [Hv [n [Hn Hnt]]]]]]]].
      exists r, c, v, (neighbors_of b r c), n. repeat split; auto.
      + apply state_at_Number. eauto.
      + apply getNeighbors_spec.
    - intros [r [c [v [ns [n [Hrc [Hns [Hn Hnt]]]]]]]].
      apply state_at_Number in Hrc as [t [Ht Hv]].
      rewrite getNeighbors_spec in Hns. inversion Hns; subst ns.
      exists r, c, t. split; [exact Ht|]. exists v. split; [exact Hv|]. eauto. }
  rewrite <- Hgap.
  assert (H1 := loop_board_none (clue_sees_gap b) (pass1_body b) b []
                  (fun r c t s => pass1_body_None b r c t s)).
  unfold findMoves. fold (pass1 b) in H1 |- *.
  destruct (pass1 b) as [mines|] eqn:E1.
  - split; [|intros Hg; apply H1 in Hg; discriminate].
    destruct (pass2 b mines) as [safe|] eqn:E2; [discriminate|]. intros _.
    exfalso.
    assert (Hn : exists r c t, tile_at b r c = Some t /\ pass2_body b mines r c t [] = None).
    { unfold pass2 in E2.
      apply (loop_board_none (fun r c t => pass2_body b mines r c t [] = None)
               (pass2_body b mines) b []) in E2.
      - exact E2.
      - intros r c t s. unfold pass2_body.
        destruct (state t); [split; discriminate|].
        destruct (getNeighbors b r c); [|split; reflexivity].
        destruct (_ =? _); [|split; discriminate].
        match goal with |- context [filterM ?f ?l] => destruct (filterM f l) end;
          split; discriminate || reflexivity. }
    destruct Hn as [r [c [t [Ht Hp]]]].
    apply pass2_body_None_gap in Hp.
    assert (Hg : exists r c t, tile_at b r c = Some t /\ clue_sees_gap b r c t) by eauto.
    apply H1 in Hg. discriminate.
  - split; [intros _; apply H1; reflexivity | reflexivity].
Qed.

(** [findMoves] throws exactly when some numbered tile has a neighbour, as
    computed by [getNeighbors], that is missing from its row. *)
Theorem findMoves_throws_iff (b : board) :
  findMoves b = None <->
  exists r c v ns n,
    state_at b r c = Some (Number v) /\ getNeighbors b r c = Some ns /\
    In n ns /\ tile_at b (fst n) (snd n) = None.
Proof. exact (findMoves_None_iff b). Qed.

(** Every row at least as long as row 0. *)
Definition wide (b : board) : Prop :=
  forall rw, In rw b -> width0 b <= Z.of_nat (List.length rw).

Lemma tile_at_in_box_wide (b : board) (p : position) :
  wide b -> in_box b p = true ->
  exists t, tile_at b (fst p) (snd p) = Some t.
Proof.
  intros Hwide Hbox. apply in_box_bounds in Hbox as [[Hr0 Hr1] [Hc0 Hc1]].
  unfold tile_at.
  replace ((fst p <? 0) || (snd p <? 0)) with false
    by (symmetry; apply orb_false_iff; split; apply Z.ltb_ge; lia).
  destruct (nth_error b (Z.to_nat (fst p))) as [rw|] eqn:Erw.
  - apply nth_error_In in Erw as Hin. apply Hwide in Hin.
    destruct (nth_error rw (Z.to_nat (snd p))) as [t|] eqn:Et; [eauto|].
    apply nth_error_None in Et. lia.
  - apply nth_error_None in Erw. lia.
Qed.

(** [findMoves] returns on every board whose rows are all at least as long
    as row 0: longer rows are harmless, only a shorter row can throw. *)
Theorem findMoves_total_wide (b : board) :
  wide b -> exists res, findMoves b = Some res.
Proof.
  intros Hwide. destruct (findMoves b) as [res|] eqn:E; [eauto|].
  apply findMoves_None_iff in E as [r [c [v [ns [n [_ [Hns [Hn Hnt]]]]]]]].
  rewrite getNeighbors_spec in Hns. inversion Hns; subst ns.
  unfold neighbors_of in Hn. apply filter_In in Hn as [_ Hbox].
  destruct (tile_at_in_box_wide b n Hwide Hbox) as [t Ht]. congruence.
Qed.

(** A ragged board, [1 . / . . .]. *)
Definition boardW : board :=
  mk_board [[Number 1; Hidden]; [Hidden; Hidden; Hidden]].

Lemma findMoves_total_wide_witness :
  wide boardW /\ exists res, findMoves boardW = Some res.
Proof.
  assert (Hw : wide boardW).
  { intros rw Hrw. simpl in Hrw. destruct Hrw as [<-|[<-|[]]]; simpl; lia. }
  split; [exact Hw | exact (findMoves_total_wide boardW Hw)].
Defined.

(** ** Soundness against a mine layout *)

(** A mine layout agrees with the board when no numbered tile is a mine and
    every number counts the mines among the neighbours [getNeighbors] gives. *)
Definition consistent (b : board) (mine : position -> bool) : Prop :=
  forall r c v ns,
    state_at b r c = Some (Number v) -> getNeighbors b r c = Some ns ->
    mine (r, c) = false /\ v = Z.of_nat (List.length (filter mine ns)).

Lemma filter_length_le {A : Type} (f g : A -> bool) (l : list A) :
  (forall x, In x l -> f x = true -> g x = true) ->
  (List.length (filter f l) <= List.length (filter g l))%nat.
Proof.
  induction l as [|x l IH]; intros H; simpl; [lia|].
  assert (IH' := IH (fun y Hy => H y (or_intror Hy))).
  destruct (f x) eqn:Ef.
  - rewrite (H x (or_introl eq_refl) Ef). simpl. lia.
  - destruct (g x); simpl; lia.
Qed.

Lemma filter_length_eq {A : Type} (f g : A -> bool) (l : list A) :
  (forall x, In x l -> f x = true -> g x = true) ->
  List.length (filter f l) = List.length (filter g l) ->
  forall x, In x l -> g x = true -> f x = true.
Proof.
  induction l as [|y l IH]; intros H Hlen x Hx Hg; [destruct Hx|].
  assert (Hle := filter_length_le f g l (fun z Hz => H z (or_intror Hz))).
  simpl in Hlen. destruct (f y) eqn:Ef.
  - rewrite (H y (or_introl eq_refl) Ef) in Hlen. simpl in Hlen.
    destruct Hx as [<-|Hx]; [exact Ef|].
    apply (IH (fun z Hz => H z (or_intror Hz))); auto.
  - destruct (g y) eqn:Eg; simpl in Hlen; [lia|].
    destruct Hx as [<-|Hx]; [congruence|].
    apply (IH (fun z Hz => H z (or_intror Hz))); auto.
Qed.

Lemma consistent_mine_hidden (b : board) (mine : position -> bool) (r c : Z)
    (n : position) :
  rectangular b -> consistent b mine -> In n (neighbors_of b r c) ->
  mine n = true -> hidden_at b n = true.
Proof.
  intros Hrect Hcons Hn Hm.
  destruct (neighbors_tile b r c n Hrect Hn) as [t [Ht ->]].
  unfold is_hidden. destruct (state t) as [|v] eqn:Hst; [reflexivity|].
  destruct (Hcons (fst n) (snd n) v (neighbors_of b (fst n) (snd n)))
    as [Hnm _].
  - apply state_at_Number. eauto.
  - apply getNeighbors_spec.
  - destruct n as [x y]. simpl in Hnm. congruence.
Qed.

Lemma pass1_sound (b : board) (mine : position -> bool) (mines : list string) :
  rectangular b -> consistent b mine -> pass1 b = Some mines ->
  forall x, In (cellKey x) mines -> mine x = true.
Proof.
  intros Hrect Hcons H1 x Hx.
  destruct (pass1_union b Hrect) as [mines' [H1' Hin]].
  rewrite H1 in H1'. inversion H1'; subst mines'.
  apply Hin in Hx as [r [c [t [n [Ht [Hn Hk]]]]]]. apply cellKey_inj in Hk. subst n.
  unfold pass1_gen in Hn. destruct (state t) as [|v] eqn:Hst; [destruct Hn|].
  destruct (v =? _) eqn:Hv; [|destruct Hn].
  apply Z.eqb_eq in Hv. apply filter_In in Hn as [Hn Hh].
  destruct (Hcons r c v (neighbors_of b r c)) as [_ Hcount].
  - apply state_at_Number. eauto.
  - apply getNeighbors_spec.
  - apply (filter_length_eq mine (hidden_at b) (neighbors_of b r c)); auto.
    + intros y Hy Hmy. apply (consistent_mine_hidden b mine r c); auto.
    + lia.
Qed.

(** On a rectangular board, for every mine layout that agrees with the
    numbers, every returned mine is a mine and every returned safe cell is
    not: both rules of [findMoves] are sound. *)
Theorem findMoves_sound (b : board) (mine : position -> bool) (res : moves) :
  rectangular b -> consistent b mine -> findMoves b = Some res ->
  (forall p, In (out_pos p) (mineCells res) -> mine p = true) /\
  (forall p, In (out_pos p) (safeCells res) -> mine p = false).
Proof.
  intros Hrect Hcons H.
  destruct (findMoves_Some b res H) as [mines [safe [H1 [H2 [-> ->]]]]].
  split.
  - intros p Hp.
    rewrite In_decode_keys in Hp by exact (keys_ok_cellKey _ _ _ (pass1_keys_ok b mines H1)).
    exact (pass1_sound b mine mines Hrect Hcons H1 p Hp).
  - intros p Hp.
    rewrite In_decode_keys in Hp
      by exact (keys_ok_cellKey _ _ _ (pass2_keys_ok b mines safe H2)).
    destruct (pass2_union b mines Hrect) as [safe' [H2' Hin]].
    rewrite H2 in H2'. inversion H2'; subst safe'.
    apply Hin in Hp as [r [c [t [n [Ht [Hn Hk]]]]]]. apply cellKey_inj in Hk. subst n.
    unfold pass2_gen in Hn. destruct (state t) as [|v] eqn:Hst; [destruct Hn|].
    destruct (_ =? v) eqn:Hv; [|destruct Hn].
    apply Z.eqb_eq in Hv. apply filter_In in Hn as [Hn Hh].
    apply andb_prop in Hh as [_ Hm]. apply negb_true_iff in Hm.
    destruct (Hcons r c v (neighbors_of b r c)) as [_ Hcount].
    + apply state_at_Number. eauto.
    + apply getNeighbors_spec.
    + destruct (mine p) eqn:Emp; [|reflexivity]. exfalso.
      assert (Himp : forall y, In y (neighbors_of b r c) ->
                set_has (cellKey y) mines = true -> mine y = true).
      { intros y _ Hy. apply set_has_In in Hy.
        exact (pass1_sound b mine mines Hrect Hcons H1 y Hy). }
      assert (Hle := filter_length_le _ _ _ Himp).
      assert (Heq := filter_length_eq _ _ _ Himp ltac:(lia) p Hn Emp).
      congruence.
Qed.

Lemma state_at_bounds (b : board) (r c : Z) (s : tile_state) :
  rectangular b -> state_at b r c = Some s ->
  0 <= r < Z.of_nat (List.length b) /\ 0 <= c < width0 b.
Proof.
  intros Hrect H. unfold state_at in H.
  destruct (tile_at b r c) as [t|] eqn:Ht; [|discriminate].
  destruct (tile_at_nonneg b r c t Ht) as [Hr Hc].
  unfold tile_at in Ht.
  replace ((r <? 0) || (c <? 0)) with false in Ht
    by (symmetry; apply orb_false_iff; split; apply Z.ltb_ge; lia).
  destruct (nth_error b (Z.to_nat r)) as [rw|] eqn:Erw; [|discriminate].
  assert (Hr' : (Z.to_nat r < List.length b)%nat)
    by (apply nth_error_Some; congruence).
  assert (Hc' : (Z.to_nat c < List.length rw)%nat)
    by (apply nth_error_Some; congruence).
  apply nth_error_In, Hrect in Erw. lia.
Qed.

(** The layout of [boardD] with its single mine at (0,1). *)
Definition mineD (p : position) : bool := (fst p =? 0) && (snd p =? 1).

Lemma findMoves_sound_witness :
  rectangular boardD /\ consistent boardD mineD /\
  findMoves boardD = Some (mk_moves [out_pos (1, 2)] [out_pos (0, 1)]) /\
  mineD (0, 1) = true /\ mineD (1, 2) = false.
Proof.
  assert (Hcons : consistent boardD mineD).
  { intros r c v ns H Hns.
    destruct (state_at_bounds boardD r c _ boardD_rectangular H) as [Hr Hc].
    simpl in Hr, Hc.
    assert (r = 0 \/ r = 1) as [-> | ->] by lia;
    (assert (c = 0 \/ c = 1 \/ c = 2) as [-> | [-> | ->]] by lia);
    vm_compute in H; inversion H; subst;
    rewrite getNeighbors_spec in Hns; inversion Hns; subst;
    vm_compute; split; reflexivity. }
  assert (Hf : findMoves boardD = Some (mk_moves [out_pos (1, 2)] [out_pos (0, 1)]))
    by (vm_compute; reflexivity).
  destruct (findMoves_sound boardD mineD _ boardD_rectangular Hcons Hf) as [Hm Hs].
  split; [exact boardD_rectangular|]. split; [exact Hcons|]. split; [exact Hf|].
  split; [apply Hm | apply Hs]; simpl; auto.
Defined.

(** ** [readBoard] *)

Lemma digit_prefix_uint (d : Decimal.uint) :
  digit_prefix (NilEmpty.string_of_uint d) = NilEmpty.string_of_uint d.
Proof. induction d; simpl; rewrite ?IHd; reflexivity. Qed.


Lemma js_parseInt_uint (d : Decimal.uint) :
  d <> Decimal.Nil ->
  js_parseInt (NilEmpty.string_of_uint d) = JNum (Z.of_uint d) /\
  js_parseInt (String "-" (NilEmpty.string_of_uint d)) = JNum (- Z.of_uint d).
Proof.
  intros Hd.
  assert (Ht : trim_start (NilEmpty.string_of_uint d) = NilEmpty.string_of_uint d)
    by (destruct d; [contradiction|reflexivity..]).
  assert (Hne : NilEmpty.string_of_uint d <> EmptyString)
    by (destruct d; [contradiction|discriminate..]).
  unfold js_parseInt. split.
  - rewrite Ht.
    replace (match NilEmpty.string_of_uint d with
             | String "-"%char s' => (-1, s')
             | String "+"%char s' => (1, s')
             | _ => (1, NilEmpty.string_of_uint d) end)
      with (1, NilEmpty.string_of_uint d)
      by (destruct d; [contradiction|reflexivity..]).
    rewrite digit_prefix_uint.
    destruct (NilEmpty.string_of_uint d) eqn:E; [contradiction|].
    rewrite <- E, NilEmpty.usu. f_equal; try lia.
  - simpl trim_start. cbv iota beta.
    rewrite digit_prefix_uint.
    destruct (NilEmpty.string_of_uint d) eqn:E; [contradiction|].
    rewrite <- E, NilEmpty.usu. f_equal; try lia.
Qed.

Lemma js_parseInt_Z_to_string (z : Z) : js_parseInt (Z_to_string z) = JNum z.
Proof.
  pose proof (DecimalZ.of_to z) as Hz. unfold Z_to_string.
  destruct (Z.to_int z) as [d|d] eqn:E;
    (assert (Hd : d <> Decimal.Nil) by (intros ->; destruct z; discriminate));
    simpl NilEmpty.string_of_int; rewrite <- Hz.
  - apply (js_parseInt_uint d Hd).
  - apply (js_parseInt_uint d Hd).
Qed.

(** The id [`${row}_${col}`] that [clickCell] and the 'S' highlighter build
    for a position (the string [cellKey] of the solver) is read back by
    [readBoard] as that position, for negative numbers too. *)
Theorem parse_id_cellKey (p : position) : parse_id (cellKey p) = out_pos p.
Proof.
  destruct p as [r c]. unfold parse_id, cellKey; simpl.
  rewrite split_on_app by apply Z_to_string_free.
  rewrite split_on_free by apply Z_to_string_free.
  simpl. rewrite !js_parseInt_Z_to_string. reflexivity.
Qed.

(** ** Maps *)

Lemma jsval_eqb_spec (x y : jsval) : jsval_eqb x y = true <-> x = y.
Proof.
  destruct x, y; simpl; split; intros H; try discriminate; try congruence.
  - apply Z.eqb_eq in H. congruence.
  - inversion H. apply Z.eqb_refl.
Qed.

Lemma jsval_eqb_refl (x : jsval) : jsval_eqb x x = true.
Proof. apply jsval_eqb_spec. reflexivity. Qed.

Lemma am_get_In {V : Type} (k : jsval) (v : V) (m : list (jsval * V)) :
  am_get k m = Some v -> In (k, v) m.
Proof.
  induction m as [|[k' v'] m IH]; simpl; [discriminate|].
  destruct (jsval_eqb k k') eqn:E; [|auto].
  apply jsval_eqb_spec in E. intros [= <-]. subst. auto.
Qed.

Lemma am_get_None {V : Type} (k : jsval) (m : list (jsval * V)) :
  am_get k m = None <-> ~ In k (map fst m).
Proof.
  induction m as [|[k' v'] m IH]; simpl; [tauto|].
  destruct (jsval_eqb k k') eqn:E.
  - apply jsval_eqb_spec in E. split; [discriminate|]. intros H. exfalso. auto.
  - rewrite IH. split; intros H; [intros [->|Hk]|]; auto.
    + rewrite jsval_eqb_refl in E. discriminate.
Qed.

Lemma am_get_set {V : Type} (k k' : jsval) (v : V) (m : list (jsval * V)) :
  am_get k' (am_set k v m) = if jsval_eqb k' k then Some v else am_get k' m.
Proof.
  unfold am_set. destruct (am_get k m) as [v0|] eqn:Ek.
  - destruct (jsval_eqb k' k) eqn:E.
    + apply jsval_eqb_spec in E. subst k'. induction m as [|[k0 v1] m IH]; simpl in *;
        [discriminate|].
      destruct (jsval_eqb k k0) eqn:E0; simpl; rewrite E0; auto.
    + clear Ek. induction m as [|[k0 v1] m IH]; simpl; [reflexivity|].
      destruct (jsval_eqb k k0) eqn:E0; simpl.
      * apply jsval_eqb_spec in E0. subst k0. rewrite E. apply IH.
      * destruct (jsval_eqb k' k0); [reflexivity|apply IH].
  - induction m as [|[k0 v0] m IH]; simpl in *.
    + destruct (jsval_eqb k' k); reflexivity.
    + destruct (jsval_eqb k k0) eqn:E0; [discriminate|].
      destruct (jsval_eqb k' k0) eqn:E1; [|apply IH; exact Ek].
      destruct (jsval_eqb k' k) eqn:E2; [|reflexivity].
      apply jsval_eqb_spec in E1, E2. subst. rewrite jsval_eqb_refl in E0. discriminate.
Qed.

Lemma am_set_keys {V : Type} (k x : jsval) (v : V) (m : list (jsval * V)) :
  In x (map fst (am_set k v m)) <-> x = k \/ In x (map fst m).
Proof.
  unfold am_set. destruct (am_get k m) as [v0|] eqn:Ek.
  - apply am_get_In in Ek.
    replace (map fst (map (fun '(k', v') =>
               if jsval_eqb k k' then (k', v) else (k', v')) m)) with (map fst m).
    + split; [auto|]. intros [->|H]; [|exact H].
      apply in_map_iff. exists (k, v0). auto.
    + rewrite map_map. apply map_ext. intros [k' v']. destruct (jsval_eqb k k'); reflexivity.
  - rewrite map_app, in_app_iff. simpl. intuition congruence.
Qed.

(** Every entry is the one [get] finds: the map has no shadowed entry. *)
Definition functional {V : Type} (m : list (jsval * V)) : Prop :=
  forall k v, In (k, v) m -> am_get k m = Some v.

Lemma functional_set {V : Type} (k : jsval) (v : V) (m : list (jsval * V)) :
  functional m -> functional (am_set k v m).
Proof.
  intros Hf k' v' Hin. rewrite am_get_set.
  unfold am_set in Hin. destruct (am_get k m) as [v0|] eqn:Ek.
  - apply in_map_iff in Hin as [[k0 v1] [Heq Hin]].
    destruct (jsval_eqb k k0) eqn:E; inversion Heq; subst k0 v'.
    + apply jsval_eqb_spec in E. subst. rewrite jsval_eqb_refl. reflexivity.
    + destruct (jsval_eqb k' k) eqn:E'; [|auto].
      apply jsval_eqb_spec in E'. subst. rewrite jsval_eqb_refl in E. discriminate.
  - apply in_app_iff in Hin as [Hin|[Hin|[]]].
    + destruct (jsval_eqb k' k) eqn:E'; [|auto].
      apply jsval_eqb_spec in E'. subst. apply Hf in Hin. congruence.
    + inversion Hin; subst. rewrite jsval_eqb_refl. reflexivity.
Qed.

Lemma jsval_eqb_sym (x y : jsval) : jsval_eqb x y = jsval_eqb y x.
Proof. destruct x, y; simpl; try reflexivity. apply Z.eqb_sym. Qed.

(** ** The map built by [readBoard] *)

Definition lookup2 (m : board_map) (kr kc : jsval) : option rtile :=
  match am_get kr m with Some cm => am_get kc cm | None => None end.

Definition colkeys (m : board_map) : list jsval :=
  flat_map (fun e => map fst (snd e)) m.

(** The square's id is read as [k]. *)
Definition id_is (k : jsval * jsval) (sq : square) : bool :=
  jsval_eqb (fst (parse_id (sq_id sq))) (fst k) &&
  jsval_eqb (snd (parse_id (sq_id sq))) (snd k).

Lemma lookup2_store (m : board_map) (sq : square) (kr kc : jsval) :
  lookup2 (store_square m sq) kr kc =
  if id_is (kr, kc) sq then Some (mk_rtile kr kc (square_state sq))
  else lookup2 m kr kc.
Proof.
  unfold store_square, id_is, lookup2.
  destruct (parse_id (sq_id sq)) as [row col]; simpl.
  rewrite am_get_set, (jsval_eqb_sym row kr), (jsval_eqb_sym col kc).
  destruct (jsval_eqb kr row) eqn:Er; simpl; [|reflexivity].
  apply jsval_eqb_spec in Er. subst kr.
  rewrite am_get_set. destruct (jsval_eqb kc col) eqn:Ec.
  - apply jsval_eqb_spec in Ec. subst. reflexivity.
  - destruct (am_get row m); reflexivity.
Qed.

Lemma fold_store_lookup2 (sqs : list square) (m : board_map) (kr kc : jsval) :
  lookup2 (fold_left store_square sqs m) kr kc =
  match find (id_is (kr, kc)) (rev sqs) with
  | Some sq => Some (mk_rtile kr kc (square_state sq))
  | None => lookup2 m kr kc
  end.
Proof.
  induction sqs as [|sq sqs IH] using rev_ind; [reflexivity|].
  rewrite fold_left_app, rev_app_distr. simpl. rewrite lookup2_store.
  destruct (id_is (kr, kc) sq); [reflexivity|]. apply IH.
Qed.

Lemma fold_store_rows (sqs : list square) (m : board_map) (x : jsval) :
  In x (map fst (fold_left store_square sqs m)) <->
  In x (map fst m) \/ exists sq, In sq sqs /\ fst (parse_id (sq_id sq)) = x.
Proof.
  revert m. induction sqs as [|sq sqs IH]; intros m; cbn [fold_left In].
  - split; [auto|]. intros [H|[sq [[] _]]]. exact H.
  - rewrite IH. unfold store_square.
    destruct (parse_id (sq_id sq)) as [row col] eqn:P. rewrite am_set_keys.
    split.
    + intros [[->|H]|[sq' [H1 H2]]]; eauto.
      right. exists sq. rewrite P. auto.
    + intros [H|[sq' [[<-|H1] H2]]]; auto.
      * rewrite P in H2. simpl in H2. auto.
      * right. eauto.
Qed.

Lemma in_colkeys (m : board_map) (x : jsval) :
  In x (colkeys m) <-> exists k v, In (k, v) m /\ In x (map fst v).
Proof.
  unfold colkeys. rewrite in_flat_map. split.
  - intros [[k v] [H1 H2]]. eauto.
  - intros [k [v [H1 H2]]]. exists (k, v). auto.
Qed.

Lemma am_set_entries {V : Type} (k k' : jsval) (v v' : V) (m : list (jsval * V)) :
  In (k', v') (am_set k v m) -> v' = v \/ In (k', v') m.
Proof.
  unfold am_set. destruct (am_get k m) as [w|].
  - intros H. apply in_map_iff in H as [[k0 v0] [Heq Hin]].
    destruct (jsval_eqb k k0); inversion Heq; subst; auto.
  - intros H. apply in_app_iff in H as [H|[H|[]]]; [auto|]. inversion H. auto.
Qed.

Lemma am_set_keeps {V : Type} (k k' : jsval) (v v' : V) (m : list (jsval * V)) :
  In (k', v') m -> jsval_eqb k k' = false -> In (k', v') (am_set k v m).
Proof.
  intros Hin Hk. unfold am_set. destruct (am_get k m) as [w|].
  - apply in_map_iff. exists (k', v'). rewrite Hk. auto.
  - apply in_app_iff. auto.
Qed.

Lemma store_colkeys (m : board_map) (sq : square) (x : jsval) :
  functional m ->
  In x (colkeys (store_square m sq)) <->
  x = snd (parse_id (sq_id sq)) \/ In x (colkeys m).
Proof.
  intros Hf. unfold store_square.
  destruct (parse_id (sq_id sq)) as [row col]; simpl.
  set (cm0 := match am_get row m with Some cm => cm | None => [] end).
  set (X := am_set col (mk_rtile row col (square_state sq)) cm0).
  assert (HX : In (row, X) (am_set row X m)).
  { apply am_get_In. rewrite am_get_set, jsval_eqb_refl. reflexivity. }
  assert (Hcm0 : forall y, In y (map fst cm0) -> In y (colkeys m)).
  { intros y Hy. unfold cm0 in Hy. destruct (am_get row m) as [cm|] eqn:E; [|destruct Hy].
    apply am_get_In in E. apply in_colkeys. eauto. }
  rewrite !in_colkeys. split.
  - intros [k [v [Hin Hx]]]. apply am_set_entries in Hin as [->|Hin].
    + unfold X in Hx. apply am_set_keys in Hx as [->|Hx]; [auto|].
      right. apply in_colkeys. auto.
    + right. eauto.
  - intros [->|[k [v [Hin Hx]]]].
    + exists row, X. split; [exact HX|]. apply am_set_keys. auto.
    + destruct (jsval_eqb row k) eqn:E.
      * apply jsval_eqb_spec in E. subst k. apply Hf in Hin.
        exists row, X. split; [exact HX|]. apply am_set_keys. right.
        unfold cm0. rewrite Hin. exact Hx.
      * exists k, v. split; [apply am_set_keeps|]; assumption.
Qed.

Lemma functional_store (m : board_map) (sq : square) :
  functional m -> functional (store_square m sq).
Proof.
  intros Hf. unfold store_square. destruct (parse_id (sq_id sq)).
  apply functional_set, Hf.
Qed.

Lemma fold_store_cols (sqs : list square) (m : board_map) (x : jsval) :
  functional m ->
  In x (colkeys (fold_left store_square sqs m)) <->
  In x (colkeys m) \/ exists sq, In sq sqs /\ snd (parse_id (sq_id sq)) = x.
Proof.
  revert m. induction sqs as [|sq sqs IH]; intros m Hf; cbn [fold_left In].
  - split; [auto|]. intros [H|[sq [[] _]]]. exact H.
  - rewrite (IH _ (functional_store m sq Hf)), (store_colkeys m sq x Hf).
    split.
    + intros [[->|H]|[sq' [H1 H2]]]; eauto.
    + intros [H|[sq' [[<-|H1] H2]]]; auto. right. eauto.
Qed.

(** ** The maxima *)

Lemma max_fold (l : list jsval) (a : Z) :
  a <= fold_left max_step l a /\
  (forall z, In (JNum z) l -> z <= fold_left max_step l a) /\
  (fold_left max_step l a = a \/ In (JNum (fold_left max_step l a)) l).
Proof.
  revert a. induction l as [|x l IH]; intros a; simpl.
  - split; [lia|]. split; [intros _ []|auto].
  - destruct (IH (max_step a x)) as [H1 [H2 H3]].
    assert (Hax : a <= max_step a x /\ forall z, x = JNum z -> z <= max_step a x).
    { unfold max_step. destruct x as [z| |]; [destruct (Z.ltb_spec a z)|..];
        split; try lia; intros z' Hz'; inversion Hz'; subst; lia. }
    destruct Hax as [Ha Hx]. split; [lia|]. split.
    + intros z [Hz|Hz]; [specialize (Hx z Hz); lia|auto].
    + destruct H3 as [H3|H3]; [|auto]. rewrite H3.
      unfold max_step. destruct x as [z| |];
        [destruct (Z.ltb_spec a z); [right; left|left]|left|left]; reflexivity.
Qed.

Lemma max_row_keys (m : board_map) :
  max_row m = fold_left max_step (map fst m) (-1).
Proof.
  unfold max_row. generalize (-1). induction m as [|[k v] m IH]; intros a; simpl; auto.
Qed.

Lemma max_col_keys (m : board_map) :
  max_col m = fold_left max_step (colkeys m) (-1).
Proof.
  unfold max_col, colkeys. generalize (-1).
  induction m as [|[k v] m IH]; intros a; simpl; [reflexivity|].
  rewrite fold_left_app, <- IH. f_equal.
  generalize a. induction v as [|[c t] v IHv]; intros a'; simpl; auto.
Qed.

Lemma le_max_fold (l : list jsval) (r : Z) :
  0 <= r ->
  (r <= fold_left max_step l (-1) <-> exists z, In (JNum z) l /\ r <= z).
Proof.
  intros Hr. destruct (max_fold l (-1)) as [_ [H2 H3]]. split.
  - intros Hle. destruct H3 as [H3|H3]; [lia|eauto].
  - intros [z [Hz Hle]]. specialize (H2 z Hz). lia.
Qed.

(** ** The grid *)

Lemma nth_error_seq (s len i : nat) :
  nth_error (seq s len) i = if (i <? len)%nat then Some (s + i)%nat else None.
Proof.
  revert s i. induction len as [|len IH]; intros s i; simpl.
  - destruct i; reflexivity.
  - destruct i as [|i]; simpl; [f_equal; lia|]. rewrite IH.
    change (S i <? S len)%nat with (i <? len)%nat.
    destruct (i <? len)%nat; [f_equal; lia|reflexivity].
Qed.

Lemma zrange_nth (n : Z) (i : nat) :
  nth_error (zrange n) i =
  if (i <? Z.to_nat n)%nat then Some (Z.of_nat i) else None.
Proof.
  unfold zrange. rewrite nth_error_map, nth_error_seq.
  destruct (i <? Z.to_nat n)%nat; reflexivity.
Qed.

Lemma rtile_at_grid (m : board_map) (R C r c : Z) :
  rtile_at (build_grid m R C) r c =
  if (0 <=? r) && (r <=? R) && (0 <=? c) && (c <=? C)
  then Some (grid_cell m r c) else None.
Proof.
  unfold rtile_at, build_grid.
  destruct (Z.ltb_spec r 0), (Z.ltb_spec c 0), (Z.leb_spec 0 r), (Z.leb_spec 0 c);
    simpl; try lia; rewrite ?andb_false_r; try reflexivity.
  rewrite nth_error_map, zrange_nth.
  destruct (Nat.ltb_spec (Z.to_nat r) (Z.to_nat (R + 1))), (Z.leb_spec r R);
    try lia; simpl; [|reflexivity].
  rewrite nth_error_map, zrange_nth.
  destruct (Nat.ltb_spec (Z.to_nat c) (Z.to_nat (C + 1))), (Z.leb_spec c C);
    try lia; simpl; [|reflexivity].
  rewrite !Z2Nat.id by lia. reflexivity.
Qed.

Lemma grid_cell_lookup2 (m : board_map) (r c : Z) :
  grid_cell m r c =
  match lookup2 m (JNum r) (JNum c) with Some t => t | None => gap_tile r c end.
Proof. unfold grid_cell, lookup2. destruct (am_get (JNum r) m); reflexivity. Qed.

(** The tile [readBoard] puts at [(r, c)]: the one of the last square whose
    id reads as [(r, c)], else a hidden gap tile. *)
Definition read_tile (squares : list square) (r c : Z) : rtile :=
  match find (id_is (JNum r, JNum c)) (rev squares) with
  | Some sq => mk_rtile (JNum r) (JNum c) (square_state sq)
  | None => gap_tile r c
  end.

Lemma grid_cell_build_map (squares : list square) (r c : Z) :
  grid_cell (build_map squares) r c = read_tile squares r c.
Proof.
  rewrite grid_cell_lookup2. unfold build_map. rewrite fold_store_lookup2.
  unfold read_tile. destruct (find _ _); reflexivity.
Qed.

Lemma readBoard_at (squares : list square) (r c : Z) :
  rtile_at (readBoard squares) r c =
  if (0 <=? r) && (r <=? max_row (build_map squares)) &&
     (0 <=? c) && (c <=? max_col (build_map squares))
  then Some (read_tile squares r c) else None.
Proof.
  unfold readBoard. rewrite rtile_at_grid, grid_cell_build_map. reflexivity.
Qed.

Lemma build_map_rows (squares : list square) (x : jsval) :
  In x (map fst (build_map squares)) <->
  exists sq, In sq squares /\ fst (parse_id (sq_id sq)) = x.
Proof.
  unfold build_map. rewrite fold_store_rows. simpl. intuition.
Qed.

Lemma build_map_cols (squares : list square) (x : jsval) :
  In x (colkeys (build_map squares)) <->
  exists sq, In sq squares /\ snd (parse_id (sq_id sq)) = x.
Proof.
  unfold build_map. rewrite fold_store_cols by (intros k v []). simpl. intuition.
Qed.

(** [readBoard] reads the tile at [(r, c)] exactly when [r] and [c] are
    non-negative, some square's id reads as a row number at least [r], and
    some square's id (in any row, [NaN] included) reads as a column number at
    least [c]; the tile is that of the last square whose id reads as
    [(r, c)], or a hidden tile [{row: r, col: c}] when there is none. *)
Theorem readBoard_spec (squares : list square) (r c : Z) (t : rtile) :
  rtile_at (readBoard squares) r c = Some t <->
  0 <= r /\ 0 <= c /\
  (exists sq z, In sq squares /\ fst (parse_id (sq_id sq)) = JNum z /\ r <= z) /\
  (exists sq z, In sq squares /\ snd (parse_id (sq_id sq)) = JNum z /\ c <= z) /\
  t = read_tile squares r c.
Proof.
  rewrite readBoard_at, max_row_keys, max_col_keys.
  destruct (Z.leb_spec 0 r) as [Hr|Hr], (Z.leb_spec 0 c) as [Hc|Hc];
    simpl; rewrite ?andb_false_r; try (split; [discriminate|lia]).
  destruct (Z.leb_spec r (fold_left max_step (map fst (build_map squares)) (-1))) as [HR|HR];
    simpl.
  - apply le_max_fold in HR as [z [Hz Hle]]; [|exact Hr].
    apply in_map_iff in Hz as [[k v] [Hk Hz]]. simpl in Hk. subst k.
    assert (Hrow : exists sq z, In sq squares /\ fst (parse_id (sq_id sq)) = JNum z /\ r <= z).
    { destruct (proj1 (build_map_rows squares (JNum z)) (in_map fst _ _ Hz)) as [sq [H1 H2]].
      eauto. }
    destruct (Z.leb_spec c (fold_left max_step (colkeys (build_map squares)) (-1))) as [HC|HC].
    + apply le_max_fold in HC as [z' [Hz' Hle']]; [|exact Hc].
      apply build_map_cols in Hz' as [sq' [H1' H2']].
      split; [intros [= <-]; repeat split; eauto|].
      intros [_ [_ [_ [_ ->]]]]. reflexivity.
    + split; [discriminate|]. intros [_ [_ [_ [[sq' [z' [H1' [H2' Hle']]]] _]]]].
      assert (Hin : In (JNum z') (colkeys (build_map squares)))
        by (apply build_map_cols; eauto).
      pose proof (proj2 (le_max_fold _ c Hc) (ex_intro _ z' (conj Hin Hle'))). lia.
  - split; [discriminate|]. intros [_ [_ [[sq' [z' [H1' [H2' Hle']]]] _]]].
    assert (Hin : In (JNum z') (map fst (build_map squares)))
      by (apply build_map_rows; eauto).
    pose proof (proj2 (le_max_fold _ r Hr) (ex_intro _ z' (conj Hin Hle'))). lia.
Qed.

(** ** From the page to the solver *)









(** ** The auto-solve toggle *)

Lemma solve_step_waiting (b : board) (w : nat) (log : list (jsval * jsval)) :
  autoSolving (solve_step b w log) = true -> waiting (solve_step b w log) = S w.
Proof.
  unfold solve_step. destruct (findMoves b) as [res|]; [|discriminate].
  destruct (safeCells res); [discriminate|reflexivity].
Qed.

Lemma auto_run_on_waiting (es : list auto_event) (st st' : auto_state) :
  (autoSolving st = true -> (1 <= waiting st)%nat) ->
  auto_run st es = Some st' ->
  autoSolving st' = true -> (1 <= waiting st')%nat.
Proof.
  revert st. induction es as [|e es IH]; simpl; intros st Hst H.
  - inversion H. subst. exact Hst.
  - destruct (auto_step st e) as [st1|] eqn:E; [|discriminate].
    apply (IH st1); [|exact H].
    destruct e as [b|b]; simpl in E.
    + destruct (autoSolving st) eqn:Ea; inversion E; subst; simpl; [discriminate|].
      unfold autoSolveLoop; rewrite Ea. intros Hon. rewrite (solve_step_waiting _ _ _ Hon). lia.
    + destruct (waiting st) as [|w]; [discriminate|].
      destruct (autoSolving st); inversion E; subst; simpl; [|discriminate].
      intros Hon. rewrite (solve_step_waiting _ _ _ Hon). lia.
Qed.

(** Whenever auto-solve is on, some [autoSolveLoop] is waiting to run its
    next step. *)
Theorem autoSolve_on_waiting (es : list auto_event) (st : auto_state) :
  auto_run auto_init es = Some st ->
  autoSolving st = true -> (1 <= waiting st)%nat.
Proof.
  apply auto_run_on_waiting. simpl. discriminate.
Qed.

Lemma autoSolve_on_waiting_witness :
  auto_run auto_init [KeyA boardD] = Some (mk_auto true 1 [out_pos (1, 2)]) /\
  autoSolving (mk_auto true 1 [out_pos (1, 2)]) = true /\
  Nat.le 1 (waiting (mk_auto true 1 [out_pos (1, 2)])).
Proof.
  assert (H : auto_run auto_init [KeyA boardD] = Some (mk_auto true 1 [out_pos (1, 2)]))
    by (vm_compute; reflexivity).
  split; [exact H|]. split; [reflexivity|].
  exact (autoSolve_on_waiting [KeyA boardD] _ H eq_refl).
Defined.

(** Pressing 'A' twice while auto-solve is on, before the waiting loop wakes
    up, does not stop it: the second press starts a new loop, and when that
    loop clicks, auto-solve is on again with one more loop waiting, so two
    loops run at once. *)
Theorem autoSolve_double_press (es : list auto_event) (st : auto_state)
    (b0 b : board) (res : moves) :
  auto_run auto_init es = Some st -> autoSolving st = true ->
  findMoves b = Some res -> safeCells res <> [] ->
  exists st', auto_run st [KeyA b0; KeyA b] = Some st' /\
    autoSolving st' = true /\ waiting st' = S (waiting st) /\
    (2 <= waiting st')%nat /\ clicked st' = clicked st ++ safeCells res.
Proof.
  intros Hrun Hon Hb Hsafe.
  pose proof (auto_run_on_waiting es auto_init st ltac:(simpl; discriminate) Hrun Hon) as Hw.
  simpl. rewrite Hon. simpl. unfold autoSolveLoop, solve_step. simpl. rewrite Hb.
  destruct (safeCells res) as [|p ps]; [contradiction|].
  eexists. repeat split; simpl; lia.
Qed.

Lemma autoSolve_double_press_witness :
  exists st', auto_run (mk_auto true 1 [out_pos (1, 2)]) [KeyA boardD; KeyA boardD] = Some st' /\
    autoSolving st' = true /\ waiting st' = 2%nat /\
    Nat.le 2 (waiting st') /\
    clicked st' = [out_pos (1, 2)] ++ [out_pos (1, 2)].
Proof.
  assert (H : auto_run auto_init [KeyA boardD] = Some (mk_auto true 1 [out_pos (1, 2)]))
    by (vm_compute; reflexivity).
  assert (Hb : findMoves boardD = Some (mk_moves [out_pos (1, 2)] [out_pos (0, 1)]))
    by (vm_compute; reflexivity).
  exact (autoSolve_double_press [KeyA boardD] _ boardD boardD _ H eq_refl Hb
           ltac:(discriminate)).
Defined.

(** After auto-solve is turned off, each waiting loop ends when it wakes up,
    without reading the board or clicking: once they have all woken, no loop
    is left and the clicks are those made before. *)
Theorem autoSolve_stop (st : auto_state) (bs : list board) :
  autoSolving st = false -> List.length bs = waiting st ->
  auto_run st (map Wake bs) = Some (mk_auto false 0 (clicked st)).
Proof.
  destruct st as [on w log]; simpl. intros -> Hlen. subst w.
  induction bs as [|b bs IH]; simpl; [reflexivity|]. exact IH.
Qed.

Lemma autoSolve_stop_witness :
  autoSolving (mk_auto false 2 [out_pos (1, 2)]) = false /\
  List.length [boardD; scenarioC] = waiting (mk_auto false 2 [out_pos (1, 2)]) /\
  auto_run (mk_auto false 2 [out_pos (1, 2)]) (map Wake [boardD; scenarioC]) =
    Some (mk_auto false 0 [out_pos (1, 2)]).
Proof.
  split; [reflexivity|]. split; [reflexivity|].
  exact (autoSolve_stop (mk_auto false 2 [out_pos (1, 2)]) [boardD; scenarioC]
           eq_refl eq_refl).
Defined.
